(** * dcp: the treewalk stage (src/treewalk.c)

    A shallow embedding of the traversal-and-chunking callback of dcp.
    C strings are [string]s (the characters before the terminating NUL),
    fixed-width unsigned integers are [Z] with the wrap-around written out,
    and the effects of one callback (metadata lookup, the [mkdir -p] command,
    directory listing, enqueueing, process exit) are threaded through a small
    trace-and-exit monad.  The callback is embedded twice.  The first
    embedding covers the runs on which [popen] returns a stream and the texts
    formatted into [cmd_buf] and [newop_path] fit these buffers; the second
    ([DCOPY_do_treewalk_sys]) drops both premises and gives the runs on which
    they fail their outcome, the process killed.  Logging ([LOG]) has no
    effect on the queue and is left out. *)

From Stdlib Require Import ZArith List String Ascii Bool Lia Relations FinFun.
From Stdlib.Strings Require Byte.
Import ListNotations.

Local Open Scope Z_scope.

(** ** Machine integers *)

Definition to_uint32 (z : Z) : Z := z mod 2 ^ 32.
Definition to_uint64 (z : Z) : Z := z mod 2 ^ 64.

(** ** C strings *)

Definition NUL : ascii := Ascii.zero.

(** A C string never holds the terminator among its characters. *)
Fixpoint cstring (s : string) : Prop :=
  match s with
  | EmptyString => True
  | String c r => c <> NUL /\ cstring r
  end.

Definition uchar (c : ascii) : Z := Z.of_N (N_of_ascii c).

(** [strncmp s1 s2 n]: compare at most [n] characters, the end of a string
    reading as the NUL terminator; the sign of the result is that of the
    first differing pair of unsigned characters. *)
Fixpoint strncmp (s1 s2 : string) (n : nat) : Z :=
  match n with
  | O => 0
  | S n' =>
      match s1, s2 with
      | EmptyString, EmptyString => 0
      | EmptyString, String c2 _ => uchar NUL - uchar c2
      | String c1 _, EmptyString => uchar c1 - uchar NUL
      | String c1 r1, String c2 r2 =>
          if Ascii.eqb c1 c2 then strncmp r1 r2 n' else uchar c1 - uchar c2
      end
  end.

(** [s + off] on a [char*]: the string that starts [off] characters in. *)
Fixpoint string_drop (n : nat) (s : string) : string :=
  match n, s with
  | O, _ => s
  | S n', String _ r => string_drop n' r
  | S _, EmptyString => EmptyString
  end.

Definition ptr_add (s : string) (off : Z) : string := string_drop (Z.to_nat off) s.

(** A C condition: any non-zero integer is true. *)
Definition c_true (z : Z) : bool := negb (z =? 0).

(** ** Metadata: [struct stat] and the file-type macros of <sys/stat.h> *)

Record stat_t : Type := mk_stat { st_mode : Z; st_size : Z }.

Definition S_IFMT : Z := 61440.   (* 0170000 *)
Definition S_IFDIR : Z := 16384.  (* 0040000 *)
Definition S_IFREG : Z := 32768.  (* 0100000 *)
Definition S_IFLNK : Z := 40960.  (* 0120000 *)

Definition S_ISDIR (m : Z) : bool := Z.land m S_IFMT =? S_IFDIR.
Definition S_ISREG (m : Z) : bool := Z.land m S_IFMT =? S_IFREG.
Definition S_ISLNK (m : Z) : bool := Z.land m S_IFMT =? S_IFLNK.

(** The filesystem as the callback sees it: [lstat] fails ([None]) or fills a
    [struct stat]; [opendir] fails or gives the names [readdir] will return,
    in order. *)
Record filesystem : Type := mk_fs {
  lstat : string -> option stat_t;
  opendir : string -> option (list string)
}.

(** ** PathClassifier *)

Definition DCOPY_is_directory (fs : filesystem) (path : string) : bool :=
  match lstat fs path with
  | None => false
  | Some statbuf => S_ISDIR (st_mode statbuf) && negb (S_ISLNK (st_mode statbuf))
  end.

Definition DCOPY_is_regular_file (fs : filesystem) (path : string) : bool :=
  match lstat fs path with
  | None => false
  | Some statbuf => S_ISREG (st_mode statbuf) && negb (S_ISLNK (st_mode statbuf))
  end.

(** ** Operations and options *)

Inductive DCOPY_operation_code_t : Type := TREEWALK | COPY.

Record DCOPY_operation_t : Type := mk_op {
  code : DCOPY_operation_code_t;
  chunk : Z;
  operand : string;
  source_base_offset : Z;
  dest_base_appendix : option string;   (* [None] is the NULL pointer *)
  file_size : Z
}.

Record DCOPY_options_t : Type := mk_opts {
  reliable_filesystem : bool;
  dest_path : string
}.

Definition EXIT_FAILURE : Z := 1.

(** ** Effects of one callback *)

Section Effects.
Variable wire : Type.

Inductive event : Type :=
| EvLstat (path : string)
| EvPopen (cmd : string)          (* popen(cmd, "r") then pclose *)
| EvOpendir (path : string)
| EvClosedir (path : string)
| EvEnqueue (item : wire).        (* handle->enqueue(item) *)

Inductive outcome (A : Type) : Type :=
| Returned (a : A) (tr : list event)
| Exited (status : Z) (tr : list event).

Definition M (A : Type) : Type := list event -> outcome A.

Definition ret {A} (a : A) : M A := fun tr => Returned A a tr.

Definition bind {A B} (m : M A) (k : A -> M B) : M B :=
  fun tr =>
    match m tr with
    | Returned _ a tr' => k a tr'
    | Exited _ st tr' => Exited B st tr'
    end.

Definition emit (e : event) : M unit := fun tr => Returned unit tt (tr ++ [e]).

Definition exit {A} (status : Z) : M A := fun tr => Exited A status tr.

Definition trace_of {A} (o : outcome A) : list event :=
  match o with
  | Returned _ _ tr => tr
  | Exited _ _ tr => tr
  end.

Fixpoint enqueued (tr : list event) : list wire :=
  match tr with
  | [] => []
  | EvEnqueue w :: r => w :: enqueued r
  | _ :: r => enqueued r
  end.
End Effects.

Arguments EvLstat {wire} path.
Arguments EvPopen {wire} cmd.
Arguments EvOpendir {wire} path.
Arguments EvClosedir {wire} path.
Arguments EvEnqueue {wire} item.
Arguments Returned {wire A} a tr.
Arguments Exited {wire A} status tr.
Arguments ret {wire A} a tr.
Arguments bind {wire A B} m k tr.
Arguments emit {wire} e tr.
Arguments exit {wire A} status tr.
Arguments trace_of {wire A} o.
Arguments enqueued {wire} tr.

Declare Scope dcp_scope.
Delimit Scope dcp_scope with dcp.
Notation "x <- m ;; k" := (bind m (fun x => k))
  (at level 61, m at next level, right associativity) : dcp_scope.
Notation "m ;; k" := (bind m (fun _ => k))
  (at level 61, right associativity) : dcp_scope.

(** ** The treewalk callback

    [DCOPY_encode_operation] and the constant [DCOPY_CHUNK_SIZE] come from
    the headers treewalk.c includes and are defined outside it: the callback
    is embedded over any encoder and any chunk size.  The chunk size is taken
    to be a positive [int] constant, so the arithmetic of
    [DCOPY_stat_process_file] on [uint32_t] operands is unsigned 32-bit
    arithmetic; a constant of a wider type would leave every result below
    unchanged, since no product formed there exceeds 32 bits. *)

Section Treewalk.
Variable wire : Type.
Variable DCOPY_encode_operation :
  DCOPY_operation_code_t -> Z -> string -> Z -> option string -> Z -> wire.
Variable DCOPY_CHUNK_SIZE : Z.

Local Open Scope dcp_scope.

Definition enqueue (item : wire) : M wire unit := emit (EvEnqueue item).

(** Lines 76-78, 103-105 and 185-187: the retry of the operation in hand. *)
Definition retry_treewalk (op : DCOPY_operation_t) : M wire unit :=
  let newop := DCOPY_encode_operation TREEWALK (chunk op) (operand op)
                 (source_base_offset op) (dest_base_appendix op) (file_size op) in
  enqueue newop.

(** The [for] loop of lines 126-130; [fuel] bounds the number of iterations
    and the counter after the loop is returned, as line 134 reads it. *)
Fixpoint chunk_loop (fuel : nat) (op : DCOPY_operation_t) (file_size : Z)
    (num_chunks chunk_index : Z) : M wire Z :=
  match fuel with
  | O => ret chunk_index
  | S fuel' =>
      if chunk_index <? num_chunks then
        let newop := DCOPY_encode_operation COPY chunk_index (operand op)
                       (source_base_offset op) (dest_base_appendix op) file_size in
        enqueue newop ;;
        chunk_loop fuel' op file_size num_chunks (to_uint32 (chunk_index + 1))
      else ret chunk_index
  end.

Definition DCOPY_stat_process_file (op : DCOPY_operation_t) (file_size : Z)
    : M wire unit :=
  let num_chunks := to_uint32 (to_uint32 file_size / to_uint32 DCOPY_CHUNK_SIZE) in
  chunk_index <- chunk_loop (Z.to_nat num_chunks) op file_size num_chunks 0 ;;
  if to_uint32 (num_chunks * to_uint32 DCOPY_CHUNK_SIZE) <? file_size then
    let newop := DCOPY_encode_operation COPY chunk_index (operand op)
                   (source_base_offset op) (dest_base_appendix op) file_size in
    enqueue newop
  else ret tt.

(** Lines 155-165: the text formatted into [cmd_buf]. *)
Definition mkdir_command (opts : DCOPY_options_t) (op : DCOPY_operation_t) : string :=
  match dest_base_appendix op with
  | Some appendix =>
      ("mkdir -p " ++ dest_path opts ++ "/" ++ appendix ++ "/"
         ++ ptr_add (operand op) (source_base_offset op))%string
  | None =>
      ("mkdir -p " ++ dest_path opts ++ "/"
         ++ ptr_add (operand op) (source_base_offset op))%string
  end.

(** Line 198: the entry is neither [.] nor [..]. *)
Definition not_dot_or_dotdot (curr_dir_name : string) : bool :=
  c_true (strncmp curr_dir_name "." 2) && c_true (strncmp curr_dir_name ".." 3).

(** The [readdir] loop of lines 194-211, over the entries still to come. *)
Fixpoint readdir_loop (op : DCOPY_operation_t) (entries : list string) : M wire unit :=
  match entries with
  | [] => ret tt
  | curr_dir_name :: rest =>
      (if not_dot_or_dotdot curr_dir_name then
         let newop_path := (operand op ++ "/" ++ curr_dir_name)%string in
         let newop := DCOPY_encode_operation TREEWALK 0 newop_path
                        (source_base_offset op) (dest_base_appendix op) (file_size op) in
         enqueue newop
       else ret tt) ;;
      readdir_loop op rest
  end.

(** Lines 145-216, on the runs where [popen] returns a stream and the texts
    fit [cmd_buf] and [newop_path]; [DCOPY_stat_process_dir_sys] below covers
    the others. *)
Definition DCOPY_stat_process_dir (opts : DCOPY_options_t) (fs : filesystem)
    (op : DCOPY_operation_t) : M wire unit :=
  emit (EvPopen (mkdir_command opts op)) ;;
  emit (EvOpendir (operand op)) ;;
  match opendir fs (operand op) with
  | None =>
      if reliable_filesystem opts then exit EXIT_FAILURE
      else retry_treewalk op
  | Some entries =>
      readdir_loop op entries ;;
      emit (EvClosedir (operand op))
  end.

Definition DCOPY_do_treewalk (opts : DCOPY_options_t) (fs : filesystem)
    (op : DCOPY_operation_t) : M wire unit :=
  emit (EvLstat (operand op)) ;;
  match lstat fs (operand op) with
  | None =>
      if reliable_filesystem opts then exit EXIT_FAILURE
      else retry_treewalk op
  | Some statbuf =>
      if S_ISDIR (st_mode statbuf) && negb (S_ISLNK (st_mode statbuf)) then
        DCOPY_stat_process_dir opts fs op
      else if S_ISREG (st_mode statbuf) && negb (S_ISLNK (st_mode statbuf)) then
        DCOPY_stat_process_file op (to_uint64 (st_size statbuf))
      else
        if reliable_filesystem opts then exit EXIT_FAILURE
        else retry_treewalk op
  end.

(** One callback on an empty trace. *)
Definition run {A} (m : M wire A) : outcome wire A := m [].

End Treewalk.

Arguments enqueue {wire} item tr.
Arguments retry_treewalk {wire} DCOPY_encode_operation op tr.
Arguments chunk_loop {wire} DCOPY_encode_operation fuel op file_size num_chunks chunk_index tr.
Arguments DCOPY_stat_process_file {wire} DCOPY_encode_operation DCOPY_CHUNK_SIZE op file_size tr.
Arguments readdir_loop {wire} DCOPY_encode_operation op entries tr.
Arguments DCOPY_stat_process_dir {wire} DCOPY_encode_operation opts fs op tr.
Arguments DCOPY_do_treewalk {wire} DCOPY_encode_operation DCOPY_CHUNK_SIZE opts fs op tr.
Arguments run {wire A} m.

(** ** The callback with the C library's failure modes

    [DCOPY_stat_process_dir] above takes two things for granted that the
    source does not check: that [popen] (line 169) returns a stream, and that
    the texts written by [sprintf] (lines 156-164 and 203) fit the
    [char[PATH_MAX]] buffers [cmd_buf] and [newop_path].  Here both can fail.
    [pclose] on the NULL of a failed [popen] (line 170) and a [sprintf] past
    the end of its buffer have no defined result in C; the process does not
    survive them, and the run ends [Killed], its trace holding the effects up
    to the fault. *)

Definition PATH_MAX : Z := 4096.

(** The text fits a [char[PATH_MAX]] with its terminator. *)
Definition fits (text : string) : Prop := Z.of_nat (String.length text) < PATH_MAX.

Inductive fault : Type :=
| BufferOverflow   (* sprintf wrote past the end of a char[PATH_MAX] *)
| PcloseNull.      (* pclose was handed the NULL popen returned *)

(** What the C library does beside the filesystem: whether [popen] on a
    command returns a stream ([true]) or NULL. *)
Record libc : Type := mk_libc {
  popen : string -> bool
}.

Declare Scope sys_scope.
Delimit Scope sys_scope with sys.

Section TreewalkSys.
Variable wire : Type.
Variable DCOPY_encode_operation :
  DCOPY_operation_code_t -> Z -> string -> Z -> option string -> Z -> wire.
Variable DCOPY_CHUNK_SIZE : Z.

Inductive sys_outcome (A : Type) : Type :=
| Finished (o : outcome wire A)                  (* returned, or left by exit *)
| Killed (f : fault) (tr : list (event wire)).

Definition K (A : Type) : Type := list (event wire) -> sys_outcome A.

Definition kret {A} (a : A) : K A := fun tr => Finished A (Returned a tr).

Definition kbind {A B} (m : K A) (k : A -> K B) : K B :=
  fun tr =>
    match m tr with
    | Finished _ (Returned a tr') => k a tr'
    | Finished _ (Exited st tr') => Finished B (Exited st tr')
    | Killed _ f tr' => Killed B f tr'
    end.

(** A step that has no fault of its own. *)
Definition lift {A} (m : M wire A) : K A := fun tr => Finished A (m tr).

(** [sprintf(buf, ...)] into a [char buf[size]]: the text and its terminator
    must fit. *)
Definition sprintf_into (size : Z) (text : string) : K string :=
  fun tr =>
    if Z.of_nat (String.length text) <? size
    then Finished string (Returned text tr)
    else Killed string BufferOverflow tr.

(** [pclose(p)] on the result of [popen]. *)
Definition pclose (stream : bool) : K unit :=
  fun tr =>
    if stream then Finished unit (Returned tt tr)
    else Killed unit PcloseNull tr.

Notation "x <- m ;; k" := (kbind m (fun x => k))
  (at level 61, m at next level, right associativity) : sys_scope.
Notation "m ;; k" := (kbind m (fun _ => k))
  (at level 61, right associativity) : sys_scope.
Local Open Scope sys_scope.

Fixpoint readdir_loop_sys (op : DCOPY_operation_t) (entries : list string) : K unit :=
  match entries with
  | [] => kret tt
  | curr_dir_name :: rest =>
      (if not_dot_or_dotdot curr_dir_name then
         newop_path <- sprintf_into PATH_MAX (operand op ++ "/" ++ curr_dir_name)%string ;;
         let newop := DCOPY_encode_operation TREEWALK 0 newop_path
                        (source_base_offset op) (dest_base_appendix op) (file_size op) in
         lift (enqueue newop)
       else kret tt) ;;
      readdir_loop_sys op rest
  end.

Definition DCOPY_stat_process_dir_sys (c : libc) (opts : DCOPY_options_t)
    (fs : filesystem) (op : DCOPY_operation_t) : K unit :=
  cmd_buf <- sprintf_into PATH_MAX (mkdir_command opts op) ;;
  lift (emit (EvPopen cmd_buf)) ;;
  pclose (popen c cmd_buf) ;;
  lift (emit (EvOpendir (operand op))) ;;
  match opendir fs (operand op) with
  | None =>
      if reliable_filesystem opts then lift (exit EXIT_FAILURE)
      else lift (retry_treewalk DCOPY_encode_operation op)
  | Some entries =>
      readdir_loop_sys op entries ;;
      lift (emit (EvClosedir (operand op)))
  end.

Definition DCOPY_do_treewalk_sys (c : libc) (opts : DCOPY_options_t)
    (fs : filesystem) (op : DCOPY_operation_t) : K unit :=
  lift (emit (EvLstat (operand op))) ;;
  match lstat fs (operand op) with
  | None =>
      if reliable_filesystem opts then lift (exit EXIT_FAILURE)
      else lift (retry_treewalk DCOPY_encode_operation op)
  | Some statbuf =>
      if S_ISDIR (st_mode statbuf) && negb (S_ISLNK (st_mode statbuf)) then
        DCOPY_stat_process_dir_sys c opts fs op
      else if S_ISREG (st_mode statbuf) && negb (S_ISLNK (st_mode statbuf)) then
        lift (DCOPY_stat_process_file DCOPY_encode_operation DCOPY_CHUNK_SIZE op
                (to_uint64 (st_size statbuf)))
      else
        if reliable_filesystem opts then lift (exit EXIT_FAILURE)
        else lift (retry_treewalk DCOPY_encode_operation op)
  end.

(** One callback on an empty trace. *)
Definition run_sys {A} (m : K A) : sys_outcome A := m [].

Definition sys_trace_of {A} (o : sys_outcome A) : list (event wire) :=
  match o with
  | Finished _ o' => trace_of o'
  | Killed _ _ tr => tr
  end.

End TreewalkSys.

Arguments Finished {wire A} o.
Arguments Killed {wire A} f tr.
Arguments kret {wire A} a tr.
Arguments kbind {wire A B} m k tr.
Arguments lift {wire A} m tr.
Arguments sprintf_into {wire} size text tr.
Arguments pclose {wire} stream tr.
Arguments readdir_loop_sys {wire} DCOPY_encode_operation op entries tr.
Arguments DCOPY_stat_process_dir_sys {wire} DCOPY_encode_operation c opts fs op tr.
Arguments DCOPY_do_treewalk_sys {wire} DCOPY_encode_operation DCOPY_CHUNK_SIZE c opts fs op tr.
Arguments run_sys {wire A} m.
Arguments sys_trace_of {wire A} o.

(** ** The shell behind [popen]

    [popen(cmd, "r")] hands [cmd] to [sh -c].  For a command made of plain
    characters and blanks (space and tab) the shell splits it into fields at
    the blanks and runs the first field with the others as arguments;
    [mkdir -p] then creates each operand with its missing ancestors.
    Commands holding any other character (a newline, which ends a command,
    quotes, expansions, operators) are outside this fragment. *)

Definition sh_blank (c : ascii) : bool :=
  Ascii.eqb c " " || Ascii.eqb c "009".

Definition sh_plain (c : ascii) : bool :=
  let n := N_of_ascii c in
  ((97 <=? n) && (n <=? 122) || (65 <=? n) && (n <=? 90) || (48 <=? n) && (n <=? 57)
   || Ascii.eqb c "/" || Ascii.eqb c "." || Ascii.eqb c "_" || Ascii.eqb c "-")%N.

Fixpoint string_forallb (p : ascii -> bool) (s : string) : bool :=
  match s with
  | EmptyString => true
  | String c r => p c && string_forallb p r
  end.

Definition sh_flush (field : string) (fields : list string) : list string :=
  match field with
  | EmptyString => fields
  | _ => field :: fields
  end.

Fixpoint sh_split (field : string) (cmd : string) : list string :=
  match cmd with
  | EmptyString => sh_flush field []
  | String c rest =>
      if sh_blank c then sh_flush field (sh_split EmptyString rest)
      else sh_split (field ++ String c EmptyString)%string rest
  end.

Definition sh_fields (cmd : string) : option (list string) :=
  if string_forallb (fun c => sh_blank c || sh_plain c) cmd
  then Some (sh_split EmptyString cmd)
  else None.

Definition is_option (field : string) : bool :=
  match field with
  | String c _ => Ascii.eqb c "-"
  | EmptyString => false
  end.

(** The directories a [mkdir -p dir ...] command line asks for; a command
    line of another shape, or with further options, is outside the
    fragment. *)
Definition mkdir_p_operands (cmd : string) : option (list string) :=
  match sh_fields cmd with
  | Some (prog :: flag :: dirs) =>
      if String.eqb prog "mkdir" && String.eqb flag "-p"
         && forallb (fun d => negb (is_option d)) dirs
      then Some dirs else None
  | _ => None
  end.

(** The destination directory of section 4.5 step 1, as lines 156-164 write
    it: destination root, the appendix when there is one, and the operand
    past its source base, joined by [/]. *)
Definition dest_dir (opts : DCOPY_options_t) (op : DCOPY_operation_t) : string :=
  match dest_base_appendix op with
  | Some appendix =>
      (dest_path opts ++ "/" ++ appendix ++ "/"
         ++ ptr_add (operand op) (source_base_offset op))%string
  | None =>
      (dest_path opts ++ "/" ++ ptr_add (operand op) (source_base_offset op))%string
  end.

(** ** OperationCodec *)

Module OperationCodec.

Import Stdlib.Strings.Byte.

Definition wire : Type := list byte.

Definition byte_of_Z (z : Z) : byte :=
  match Byte.of_N (Z.to_N (z mod 256)) with
  | Some b => b
  | None => x00
  end.

Definition Z_of_byte (b : byte) : Z := Z.of_N (Byte.to_N b).

(** Little-endian unsigned integer on [width] bytes. *)
Fixpoint encode_uint (width : nat) (z : Z) : list byte :=
  match width with
  | O => []
  | S w => byte_of_Z z :: encode_uint w (z / 256)
  end.

Definition parser (A : Type) : Type := list byte -> option (A * list byte).

Definition pret {A} (a : A) : parser A := fun bs => Some (a, bs).

Definition pbind {A B} (p : parser A) (k : A -> parser B) : parser B :=
  fun bs =>
    match p bs with
    | Some (a, rest) => k a rest
    | None => None
    end.

Definition pfail {A} : parser A := fun _ => None.

Definition any_byte : parser byte :=
  fun bs =>
    match bs with
    | [] => None
    | b :: rest => Some (b, rest)
    end.

Fixpoint decode_uint (width : nat) : parser Z :=
  match width with
  | O => pret 0
  | S w =>
      pbind any_byte (fun b =>
      pbind (decode_uint w) (fun hi =>
      pret (Z_of_byte b + 256 * hi)))
  end.

Definition take (n : nat) : parser (list byte) :=
  fun bs => if (n <=? List.length bs)%nat then Some (firstn n bs, skipn n bs) else None.

Definition encode_string (s : string) : list byte :=
  let bs := list_byte_of_string s in
  encode_uint 4 (Z.of_nat (List.length bs)) ++ bs.

Definition decode_string : parser string :=
  pbind (decode_uint 4) (fun len =>
  pbind (take (Z.to_nat len)) (fun bs =>
  pret (string_of_list_byte bs))).

Definition VERSION : byte := x01.

Definition encode_code (c : DCOPY_operation_code_t) : byte :=
  match c with
  | TREEWALK => x00
  | COPY => x01
  end.

Definition decode_code : parser DCOPY_operation_code_t :=
  pbind any_byte (fun b =>
    match b with
    | x00 => pret TREEWALK
    | x01 => pret COPY
    | _ => pfail
    end).

Definition encode_appendix (a : option string) : list byte :=
  match a with
  | None => [x00]
  | Some s => x01 :: encode_string s
  end.

Definition decode_appendix : parser (option string) :=
  pbind any_byte (fun b =>
    match b with
    | x00 => pret None
    | x01 => pbind decode_string (fun s => pret (Some s))
    | _ => pfail
    end).

(** Modelled from the spec: [DCOPY_encode_operation] is defined outside
    treewalk.c; this is the wire form sections 4.1 and 6 ask for, a versioned,
    self-delimiting encoding of kind, chunk index, operand, source base
    offset, nullable destination appendix and file size, each path carried
    behind its length so that no byte of it acts as a delimiter. *)
Definition encode (op : DCOPY_operation_t) : wire :=
  VERSION :: encode_code (code op) :: encode_uint 4 (chunk op)
    ++ encode_string (operand op)
    ++ encode_uint 8 (source_base_offset op)
    ++ encode_appendix (dest_base_appendix op)
    ++ encode_uint 8 (file_size op).

Definition decode_fields : parser DCOPY_operation_t :=
  pbind any_byte (fun v =>
  if Byte.eqb v VERSION then
    pbind decode_code (fun c =>
    pbind (decode_uint 4) (fun k =>
    pbind decode_string (fun o =>
    pbind (decode_uint 8) (fun s =>
    pbind decode_appendix (fun d =>
    pbind (decode_uint 8) (fun f =>
    pret (mk_op c k o s d f)))))))
  else pfail).

Inductive decoded : Type :=
| Decoded (op : DCOPY_operation_t)
| DecodeError.

(** Modelled from the spec: the decoder of section 4.1, absent from
    treewalk.c; malformed input, trailing bytes included, is a
    [DecodeError]. *)
Definition decode (w : wire) : decoded :=
  match decode_fields w with
  | Some (op, []) => Decoded op
  | _ => DecodeError
  end.

(** The operations the wire form can carry: every integer fits its field and
    every path its 32-bit length prefix. *)
Definition constructible (op : DCOPY_operation_t) : Prop :=
  0 <= chunk op < 2 ^ 32
  /\ 0 <= source_base_offset op < 2 ^ 64
  /\ 0 <= file_size op < 2 ^ 64
  /\ Z.of_nat (String.length (operand op)) < 2 ^ 32
  /\ match dest_base_appendix op with
     | Some a => Z.of_nat (String.length a) < 2 ^ 32
     | None => True
     end.

End OperationCodec.

(** ** One step of the traversal, as the queue engine chains callbacks

    The engine decodes an enqueued item and hands the operation to the
    callback of its kind; [derives] relates a TREEWALK operation to any
    operation decoded from an item its callback enqueued, on whatever
    filesystem state the callback met. *)

Section Traversal.
Variable wire : Type.
Variable DCOPY_encode_operation :
  DCOPY_operation_code_t -> Z -> string -> Z -> option string -> Z -> wire.
Variable DCOPY_CHUNK_SIZE : Z.
Variable DCOPY_decode_operation : wire -> option DCOPY_operation_t.

Definition derives (opts : DCOPY_options_t) (op op' : DCOPY_operation_t) : Prop :=
  code op = TREEWALK /\
  exists fs item,
    In item (enqueued (trace_of
               (run (DCOPY_do_treewalk DCOPY_encode_operation DCOPY_CHUNK_SIZE opts fs op))))
    /\ DCOPY_decode_operation item = Some op'.

End Traversal.

Arguments derives {wire} DCOPY_encode_operation DCOPY_CHUNK_SIZE DCOPY_decode_operation opts op op'.

(** The items the callback builds, named after what they are for. *)

Section Items.
Variable wire : Type.
Variable DCOPY_encode_operation :
  DCOPY_operation_code_t -> Z -> string -> Z -> option string -> Z -> wire.

Definition retry_item (op : DCOPY_operation_t) : wire :=
  DCOPY_encode_operation TREEWALK (chunk op) (operand op) (source_base_offset op)
    (dest_base_appendix op) (file_size op).

Definition copy_item (op : DCOPY_operation_t) (F : Z) (i : Z) : wire :=
  DCOPY_encode_operation COPY i (operand op) (source_base_offset op)
    (dest_base_appendix op) F.

Definition child_item (op : DCOPY_operation_t) (name : string) : wire :=
  DCOPY_encode_operation TREEWALK 0 (operand op ++ "/" ++ name)%string
    (source_base_offset op) (dest_base_appendix op) (file_size op).

End Items.

Arguments retry_item {wire} DCOPY_encode_operation op.
Arguments copy_item {wire} DCOPY_encode_operation op F i.
Arguments child_item {wire} DCOPY_encode_operation op name.

(** ** Arithmetic of the chunk-count law *)

Definition ceil_div (a b : Z) : Z := (a + b - 1) / b.

(** The indices [start, start + n). *)
Fixpoint zseq (start : Z) (n : nat) : list Z :=
  match n with
  | O => []
  | S n' => start :: zseq (start + 1) n'
  end.

(** The indices the chunker enqueues for a size [F]: the full chunks of the
    low 32 bits of [F], and one more when their total stays below [F]. *)
Definition chunk_indices (CHUNK F : Z) : list Z :=
  let nc := (F mod 2 ^ 32) / CHUNK in
  zseq 0 (Z.to_nat nc) ++ (if nc * CHUNK <? F then [nc] else []).

(** ** Scenarios of section 8

    A filesystem given by the metadata of its objects and the listings of its
    directories, a chunk size of 4 MiB, and the identity codec, under which
    an enqueued item is the operation itself. *)

Fixpoint assoc {A} (key : string) (table : list (string * A)) : option A :=
  match table with
  | [] => None
  | (k, v) :: rest => if String.eqb key k then Some v else assoc key rest
  end.

Definition fs_of (objects : list (string * stat_t))
    (listings : list (string * list string)) : filesystem :=
  mk_fs (fun path => assoc path objects) (fun path => assoc path listings).

Definition MODE_DIR : Z := 16877.   (* 0040755 *)
Definition MODE_REG : Z := 33188.   (* 0100644 *)
Definition MODE_LNK : Z := 41471.   (* 0120777 *)

Definition CHUNK_4M : Z := 4194304.

Definition flat_fs : filesystem :=
  fs_of [("/src", mk_stat MODE_DIR 4096);
         ("/src/a", mk_stat MODE_REG 0);
         ("/src/b", mk_stat MODE_REG (2 * CHUNK_4M));
         ("/src/c", mk_stat MODE_REG (2 * CHUNK_4M + 100));
         ("/src/lnk", mk_stat MODE_LNK 4)]%string
        [("/src", ["."; ".."; "a"; "b"; "c"])]%string.

Definition nested_fs : filesystem :=
  fs_of [("/src", mk_stat MODE_DIR 4096);
         ("/src/sub", mk_stat MODE_DIR 4096);
         ("/src/sub/d", mk_stat MODE_REG 100)]%string
        [("/src", ["."; ".."; "sub"]); ("/src/sub", ["."; ".."; "d"])]%string.

Definition unreliable : DCOPY_options_t := mk_opts false "/dst".

Fixpoint string_repeat (n : nat) (c : ascii) : string :=
  match n with
  | O => EmptyString
  | S n' => String c (string_repeat n' c)
  end.

(** A C library whose [popen] always returns a stream, and one whose [popen]
    always returns NULL. *)
Definition libc_ok : libc := mk_libc (fun _ => true).
Definition libc_no_popen : libc := mk_libc (fun _ => false).

Definition treewalk (fs : filesystem) (op : DCOPY_operation_t)
    : outcome DCOPY_operation_t unit :=
  run (DCOPY_do_treewalk mk_op CHUNK_4M unreliable fs op).

(** * Properties *)

(** ** Traces *)

Lemma enqueued_app {wire} (a b : list (event wire)) :
  enqueued (a ++ b) = enqueued a ++ enqueued b.
Proof.
  induction a as [|e a IH]; simpl; [reflexivity|].
  destruct e; simpl; rewrite IH; reflexivity.
Qed.

Lemma enqueued_map_enqueue {wire} (items : list wire) :
  enqueued (map EvEnqueue items) = items.
Proof.
  induction items as [|w items IH]; simpl; [reflexivity|].
  now rewrite IH.
Qed.

Lemma zseq_length start n : List.length (zseq start n) = n.
Proof.
  revert start; induction n as [|n IH]; intros start; simpl; [reflexivity|].
  now rewrite IH.
Qed.

Lemma zseq_In start n i : In i (zseq start n) <-> start <= i < start + Z.of_nat n.
Proof.
  revert start; induction n as [|n IH]; intros start.
  - simpl. split; [tauto | lia].
  - cbn [zseq In]. rewrite IH. lia.
Qed.

Lemma zseq_snoc start n : zseq start (S n) = zseq start n ++ [start + Z.of_nat n].
Proof.
  revert start; induction n as [|n IH]; intros start.
  - simpl. now rewrite Z.add_0_r.
  - change (zseq start (S (S n))) with (start :: zseq (start + 1) (S n)).
    rewrite IH. cbn [zseq app]. do 3 f_equal. lia.
Qed.

(** ** File-type macros and the classifier *)

Lemma S_ISDIR_not_REG m : S_ISDIR m = true -> S_ISREG m = false.
Proof.
  unfold S_ISDIR, S_ISREG. intros H. apply Z.eqb_eq in H. rewrite H. reflexivity.
Qed.

Lemma S_ISLNK_not_DIR m : S_ISLNK m = true -> S_ISDIR m = false.
Proof.
  unfold S_ISDIR, S_ISLNK. intros H. apply Z.eqb_eq in H. rewrite H. reflexivity.
Qed.

Lemma S_ISLNK_not_REG m : S_ISLNK m = true -> S_ISREG m = false.
Proof.
  unfold S_ISREG, S_ISLNK. intros H. apply Z.eqb_eq in H. rewrite H. reflexivity.
Qed.

(** The link test of lines 42, 57, 85 and 89 never changes the answer. *)
Lemma S_ISDIR_nolink m : S_ISDIR m && negb (S_ISLNK m) = S_ISDIR m.
Proof.
  destruct (S_ISLNK m) eqn:L.
  - rewrite (S_ISLNK_not_DIR _ L). reflexivity.
  - apply andb_true_r.
Qed.

Lemma S_ISREG_nolink m : S_ISREG m && negb (S_ISLNK m) = S_ISREG m.
Proof.
  destruct (S_ISLNK m) eqn:L.
  - rewrite (S_ISLNK_not_REG _ L). reflexivity.
  - apply andb_true_r.
Qed.

(** ** C strings *)

Lemma uchar_inj c1 c2 : uchar c1 = uchar c2 -> c1 = c2.
Proof.
  unfold uchar. intros H. apply N2Z.inj in H.
  rewrite <- (ascii_N_embedding c1), <- (ascii_N_embedding c2). now rewrite H.
Qed.

Lemma uchar_NUL : uchar NUL = 0.
Proof. reflexivity. Qed.

(** With room for the terminator of [s2], [strncmp] is zero exactly on equal
    strings. *)
Lemma strncmp_zero_iff n : forall s1 s2,
  cstring s1 -> cstring s2 -> (String.length s2 < n)%nat ->
  (strncmp s1 s2 n = 0 <-> s1 = s2).
Proof.
  induction n as [|n IH]; intros s1 s2 C1 C2 L; [inversion L|].
  destruct s1 as [|c1 r1], s2 as [|c2 r2]; cbn [strncmp].
  - tauto.
  - destruct C2 as [N2 _]. split; [|discriminate].
    intros H. exfalso. apply N2. apply uchar_inj. rewrite uchar_NUL in *. lia.
  - destruct C1 as [N1 _]. split; [|discriminate].
    intros H. exfalso. apply N1. apply uchar_inj. rewrite uchar_NUL in *. lia.
  - destruct C1 as [_ C1], C2 as [_ C2]. cbn [String.length] in L.
    destruct (Ascii.eqb_spec c1 c2) as [->|NE].
    + rewrite (IH r1 r2 C1 C2) by lia. split; [now intros ->|now inversion 1].
    + split.
      * intros H. exfalso. apply NE. apply uchar_inj. lia.
      * inversion 1. contradiction.
Qed.

Lemma not_dot_or_dotdot_spec name :
  cstring name ->
  not_dot_or_dotdot name = negb (String.eqb name ".") && negb (String.eqb name "..").
Proof.
  intros Cn. unfold not_dot_or_dotdot, c_true.
  assert (D1 : (strncmp name "." 2 =? 0) = String.eqb name ".").
  { destruct (String.eqb_spec name ".") as [E|E].
    - apply Z.eqb_eq. apply strncmp_zero_iff; simpl; auto. repeat split; discriminate.
    - apply Z.eqb_neq. intros H. apply E. revert H.
      apply strncmp_zero_iff; simpl; auto. repeat split; discriminate. }
  assert (D2 : (strncmp name ".." 3 =? 0) = String.eqb name "..").
  { destruct (String.eqb_spec name "..") as [E|E].
    - apply Z.eqb_eq. apply strncmp_zero_iff; simpl; auto. repeat split; discriminate.
    - apply Z.eqb_neq. intros H. apply E. revert H.
      apply strncmp_zero_iff; simpl; auto. repeat split; discriminate. }
  now rewrite D1, D2.
Qed.

Lemma string_app_inv_head (p a b : string) : (p ++ a = p ++ b)%string -> a = b.
Proof.
  induction p as [|c p IH]; simpl; intros H; [exact H|].
  inversion H. auto.
Qed.

(** ** The callback, over any encoder and chunk size *)

Section TreewalkProperties.
Variable wire : Type.
Variable encode :
  DCOPY_operation_code_t -> Z -> string -> Z -> option string -> Z -> wire.
Variable CHUNK : Z.

(** *** The chunk loop *)

(** Whatever the fuel, the loop returns, and every item it enqueued is a COPY
    of the operation in hand carrying [F]. *)
Lemma chunk_loop_returns op F nc : forall fuel ci tr,
  exists ci' idxs,
    chunk_loop encode fuel op F nc ci tr
    = Returned ci' (tr ++ map EvEnqueue (map (copy_item encode op F) idxs)).
Proof.
  induction fuel as [|fuel IH]; intros ci tr; cbn [chunk_loop].
  - exists ci, []. unfold ret. simpl. now rewrite app_nil_r.
  - destruct (ci <? nc).
    + unfold bind, enqueue, emit. fold (copy_item encode op F ci).
      destruct (IH (to_uint32 (ci + 1)) (tr ++ [EvEnqueue (copy_item encode op F ci)]))
        as (ci' & idxs & E).
      exists ci', (ci :: idxs). rewrite E. rewrite <- app_assoc. reflexivity.
    + exists ci, []. unfold ret. simpl. now rewrite app_nil_r.
Qed.

(** Enough fuel: with [n] iterations to go and at least [n] units of fuel the
    loop leaves by its guard, the counter at [nc], having enqueued the
    indices passed through. *)
Lemma chunk_loop_spec op F nc : forall n fuel ci tr,
  0 <= ci -> ci + Z.of_nat n = nc -> nc < 2 ^ 32 -> (n <= fuel)%nat ->
  chunk_loop encode fuel op F nc ci tr
  = Returned nc (tr ++ map EvEnqueue (map (copy_item encode op F) (zseq ci n))).
Proof.
  induction n as [|n IH]; intros fuel ci tr Hci Hn Hnc Hf.
  - assert (ci = nc) by lia. subst ci.
    destruct fuel; cbn [chunk_loop zseq map].
    + unfold ret. now rewrite app_nil_r.
    + rewrite Z.ltb_irrefl. unfold ret. now rewrite app_nil_r.
  - destruct fuel as [|fuel]; [lia|]. cbn [chunk_loop].
    assert (L : (ci <? nc) = true) by (apply Z.ltb_lt; lia). rewrite L.
    unfold bind, enqueue, emit. fold (copy_item encode op F ci).
    assert (W : to_uint32 (ci + 1) = ci + 1).
    { unfold to_uint32. apply Z.mod_small. lia. }
    rewrite W. rewrite (IH fuel (ci + 1)) by lia.
    cbn [zseq map]. rewrite <- app_assoc. reflexivity.
Qed.

(** *** The chunker *)

Lemma process_file_returns op F tr :
  exists idxs,
    DCOPY_stat_process_file encode CHUNK op F tr
    = Returned tt (tr ++ map EvEnqueue (map (copy_item encode op F) idxs)).
Proof.
  unfold DCOPY_stat_process_file, bind.
  set (nc := to_uint32 (to_uint32 F / to_uint32 CHUNK)).
  destruct (chunk_loop_returns op F nc (Z.to_nat nc) 0 tr) as (ci' & idxs & E).
  rewrite E.
  destruct (to_uint32 (nc * to_uint32 CHUNK) <? F).
  - exists (idxs ++ [ci']). unfold enqueue, emit. fold (copy_item encode op F ci').
    rewrite !map_app, app_assoc. reflexivity.
  - exists idxs. reflexivity.
Qed.

Lemma process_file_spec op F :
  0 < CHUNK < 2 ^ 31 -> 0 <= F ->
  run (DCOPY_stat_process_file encode CHUNK op F)
  = Returned tt (map EvEnqueue (map (copy_item encode op F) (chunk_indices CHUNK F))).
Proof.
  intros HC HF. unfold run, DCOPY_stat_process_file, chunk_indices, bind.
  assert (EC : to_uint32 CHUNK = CHUNK) by (unfold to_uint32; apply Z.mod_small; lia).
  rewrite EC.
  replace (to_uint32 F) with (F mod 2 ^ 32) by reflexivity.
  set (lo := F mod 2 ^ 32).
  assert (Hlo : 0 <= lo < 2 ^ 32) by (apply Z.mod_pos_bound; lia).
  set (nc := lo / CHUNK).
  assert (Hnc : 0 <= nc) by (apply Z.div_pos; lia).
  assert (Hmul : nc * CHUNK <= lo).
  { unfold nc. rewrite Z.mul_comm. apply Z.mul_div_le. lia. }
  assert (Hnc2 : nc < 2 ^ 32) by nia.
  assert (E1 : to_uint32 nc = nc) by (unfold to_uint32; apply Z.mod_small; lia).
  assert (E2 : to_uint32 (nc * CHUNK) = nc * CHUNK)
    by (unfold to_uint32; apply Z.mod_small; nia).
  rewrite E1, E2.
  rewrite (chunk_loop_spec op F nc (Z.to_nat nc)) by lia.
  cbn [app]. destruct (nc * CHUNK <? F).
  - unfold enqueue, emit. fold (copy_item encode op F nc).
    rewrite !map_app. reflexivity.
  - unfold ret. rewrite app_nil_r. reflexivity.
Qed.

(** *** The expander *)

Lemma readdir_loop_spec op : forall entries tr,
  readdir_loop encode op entries tr
  = Returned tt
      (tr ++ map EvEnqueue (map (child_item encode op) (filter not_dot_or_dotdot entries))).
Proof.
  induction entries as [|name rest IH]; intros tr; cbn [readdir_loop filter].
  - unfold ret. simpl. now rewrite app_nil_r.
  - unfold bind. destruct (not_dot_or_dotdot name).
    + unfold enqueue, emit. fold (child_item encode op name).
      rewrite IH. cbn [map]. rewrite <- app_assoc. reflexivity.
    + unfold ret. apply IH.
Qed.

Lemma mkdir_command_dest_dir opts op :
  mkdir_command opts op = ("mkdir -p " ++ dest_dir opts op)%string.
Proof.
  unfold mkdir_command, dest_dir. destruct (dest_base_appendix op); reflexivity.
Qed.

Lemma process_dir_spec opts fs op tr :
  DCOPY_stat_process_dir encode opts fs op tr
  = match opendir fs (operand op) with
    | None =>
        if reliable_filesystem opts
        then Exited EXIT_FAILURE
               (tr ++ [EvPopen (mkdir_command opts op); EvOpendir (operand op)])
        else Returned tt
               (tr ++ [EvPopen (mkdir_command opts op); EvOpendir (operand op);
                       EvEnqueue (retry_item encode op)])
    | Some entries =>
        Returned tt
          (tr ++ [EvPopen (mkdir_command opts op); EvOpendir (operand op)]
              ++ map EvEnqueue
                   (map (child_item encode op) (filter not_dot_or_dotdot entries))
              ++ [EvClosedir (operand op)])
    end.
Proof.
  unfold DCOPY_stat_process_dir, bind, emit.
  destruct (opendir fs (operand op)) as [entries|].
  - rewrite readdir_loop_spec. rewrite <- !app_assoc. reflexivity.
  - destruct (reliable_filesystem opts).
    + unfold exit. rewrite <- !app_assoc. reflexivity.
    + unfold retry_treewalk, enqueue, emit. rewrite <- !app_assoc. reflexivity.
Qed.

(** *** The driver *)

Lemma do_treewalk_spec opts fs op :
  run (DCOPY_do_treewalk encode CHUNK opts fs op)
  = match lstat fs (operand op) with
    | None =>
        if reliable_filesystem opts
        then Exited EXIT_FAILURE [EvLstat (operand op)]
        else Returned tt [EvLstat (operand op); EvEnqueue (retry_item encode op)]
    | Some statbuf =>
        if S_ISDIR (st_mode statbuf) then
          DCOPY_stat_process_dir encode opts fs op [EvLstat (operand op)]
        else if S_ISREG (st_mode statbuf) then
          DCOPY_stat_process_file encode CHUNK op (to_uint64 (st_size statbuf))
            [EvLstat (operand op)]
        else
          if reliable_filesystem opts
          then Exited EXIT_FAILURE [EvLstat (operand op)]
          else Returned tt [EvLstat (operand op); EvEnqueue (retry_item encode op)]
    end.
Proof.
  unfold run, DCOPY_do_treewalk, bind, emit. cbn [app].
  destruct (lstat fs (operand op)) as [statbuf|].
  - rewrite S_ISDIR_nolink, S_ISREG_nolink.
    destruct (S_ISDIR (st_mode statbuf)); [reflexivity|].
    destruct (S_ISREG (st_mode statbuf)); [reflexivity|].
    destruct (reliable_filesystem opts); reflexivity.
  - destruct (reliable_filesystem opts); reflexivity.
Qed.

(** On the runs this embedding covers, the callback returns or exits with
    [EXIT_FAILURE], and it exits only in reliable mode. *)
Lemma do_treewalk_total opts fs op :
  (exists tr, run (DCOPY_do_treewalk encode CHUNK opts fs op) = Returned tt tr)
  \/ (reliable_filesystem opts = true
      /\ exists tr, run (DCOPY_do_treewalk encode CHUNK opts fs op)
                    = Exited EXIT_FAILURE tr).
Proof.
  rewrite do_treewalk_spec.
  destruct (lstat fs (operand op)) as [statbuf|].
  - destruct (S_ISDIR (st_mode statbuf)).
    + rewrite process_dir_spec. destruct (opendir fs (operand op)); [eauto|].
      destruct (reliable_filesystem opts); eauto.
    + destruct (S_ISREG (st_mode statbuf)).
      * destruct (process_file_returns op (to_uint64 (st_size statbuf))
                    [EvLstat (operand op)]) as (idxs & E).
        rewrite E. eauto.
      * destruct (reliable_filesystem opts); eauto.
  - destruct (reliable_filesystem opts); eauto.
Qed.

(** The three error paths of the callback leave the same queue: nothing
    before the exit in reliable mode, the retry alone otherwise. *)
Lemma do_treewalk_error opts fs op :
  lstat fs (operand op) = None
  \/ (lstat fs (operand op) <> None
      /\ DCOPY_is_directory fs (operand op) = false
      /\ DCOPY_is_regular_file fs (operand op) = false)
  \/ (DCOPY_is_directory fs (operand op) = true /\ opendir fs (operand op) = None) ->
  exists tr,
    run (DCOPY_do_treewalk encode CHUNK opts fs op)
    = (if reliable_filesystem opts then Exited EXIT_FAILURE tr
       else Returned tt (tr ++ [EvEnqueue (retry_item encode op)]))
    /\ enqueued tr = [].
Proof.
  unfold DCOPY_is_directory, DCOPY_is_regular_file.
  rewrite do_treewalk_spec.
  destruct (lstat fs (operand op)) as [statbuf|].
  - rewrite S_ISDIR_nolink, S_ISREG_nolink.
    intros [H | [(_ & D & R) | (D & O)]]; [discriminate| |].
    + rewrite D, R. exists [EvLstat (operand op)].
      destruct (reliable_filesystem opts); split; reflexivity.
    + rewrite D, process_dir_spec, O.
      exists [EvLstat (operand op); EvPopen (mkdir_command opts op);
              EvOpendir (operand op)].
      destruct (reliable_filesystem opts); split; reflexivity.
  - intros _. exists [EvLstat (operand op)].
    destruct (reliable_filesystem opts); split; reflexivity.
Qed.

(** *** Retry or fatal *)


(** *** Classification *)

(** C9.  No metadata result makes both classifiers true, and the driver
    follows them: an operand that is a directory gets the expander alone, one
    that is a regular file the chunker alone. *)
Theorem classifier_exclusive fs path :
  DCOPY_is_directory fs path && DCOPY_is_regular_file fs path = false
  /\ forall opts op, operand op = path ->
       (DCOPY_is_directory fs path = true ->
          run (DCOPY_do_treewalk encode CHUNK opts fs op)
          = DCOPY_stat_process_dir encode opts fs op [EvLstat path])
       /\ (DCOPY_is_regular_file fs path = true ->
             exists statbuf,
               lstat fs path = Some statbuf
               /\ run (DCOPY_do_treewalk encode CHUNK opts fs op)
                  = DCOPY_stat_process_file encode CHUNK op
                      (to_uint64 (st_size statbuf)) [EvLstat path]).
Proof.
  unfold DCOPY_is_directory, DCOPY_is_regular_file. split.
  - destruct (lstat fs path) as [statbuf|]; [|reflexivity].
    rewrite S_ISDIR_nolink, S_ISREG_nolink.
    destruct (S_ISDIR (st_mode statbuf)) eqn:D; [|reflexivity].
    now rewrite (S_ISDIR_not_REG _ D).
  - intros opts op <-. rewrite do_treewalk_spec.
    destruct (lstat fs (operand op)) as [statbuf|]; [|split; discriminate].
    rewrite S_ISDIR_nolink, S_ISREG_nolink. split.
    + intros D. now rewrite D.
    + intros R. exists statbuf. split; [reflexivity|].
      destruct (S_ISDIR (st_mode statbuf)) eqn:D.
      * rewrite (S_ISDIR_not_REG _ D) in R. discriminate.
      * now rewrite R.
Qed.

(** C5.  When [lstat] reports a symbolic link, both classifiers answer false
    and the driver takes the unsupported-type branch: no [mkdir], no listing,
    no COPY item; an exit in reliable mode, the retry otherwise. *)
Theorem symlink_unsupported opts fs op statbuf :
  lstat fs (operand op) = Some statbuf ->
  S_ISLNK (st_mode statbuf) = true ->
  DCOPY_is_directory fs (operand op) = false
  /\ DCOPY_is_regular_file fs (operand op) = false
  /\ run (DCOPY_do_treewalk encode CHUNK opts fs op)
     = if reliable_filesystem opts
       then Exited EXIT_FAILURE [EvLstat (operand op)]
       else Returned tt
              [EvLstat (operand op);
               EvEnqueue (encode TREEWALK (chunk op) (operand op)
                            (source_base_offset op) (dest_base_appendix op)
                            (file_size op))].
Proof.
  intros L K. unfold DCOPY_is_directory, DCOPY_is_regular_file.
  rewrite do_treewalk_spec, L.
  rewrite S_ISDIR_nolink, S_ISREG_nolink.
  rewrite (S_ISLNK_not_DIR _ K), (S_ISLNK_not_REG _ K).
  repeat split.
Qed.

(** *** Directory expansion *)


(** *** Chunk counts *)

Lemma ceil_div_spec F :
  0 < CHUNK -> 0 <= F ->
  ceil_div F CHUNK = F / CHUNK + (if F mod CHUNK =? 0 then 0 else 1).
Proof.
  intros HC HF. unfold ceil_div.
  pose proof (Z.div_mod F CHUNK ltac:(lia)) as DM.
  pose proof (Z.mod_pos_bound F CHUNK HC) as MB.
  destruct (Z.eqb_spec (F mod CHUNK) 0) as [E|E].
  - symmetry. apply (Z.div_unique _ _ _ (CHUNK - 1)); lia.
  - symmetry. apply (Z.div_unique _ _ _ (F mod CHUNK - 1)); lia.
Qed.

Lemma chunk_indices_length F :
  0 < CHUNK -> 0 <= F ->
  Z.of_nat (List.length (chunk_indices CHUNK F))
  = (F mod 2 ^ 32) / CHUNK
    + (if (F mod 2 ^ 32) / CHUNK * CHUNK <? F then 1 else 0).
Proof.
  intros HC HF. unfold chunk_indices. cbv zeta.
  pose proof (Z.mod_pos_bound F (2 ^ 32) ltac:(lia)) as LB.
  assert (0 <= (F mod 2 ^ 32) / CHUNK) by (apply Z.div_pos; lia).
  rewrite length_app, zseq_length, Nat2Z.inj_add, Z2Nat.id by lia.
  destruct (_ <? _); reflexivity.
Qed.

(** Sizes that fit in 32 bits: the indices are those of the full chunks, and
    one more exactly when a remainder is left. *)
Lemma chunk_indices_small F :
  0 < CHUNK -> 0 <= F < 2 ^ 32 ->
  chunk_indices CHUNK F
  = zseq 0 (Z.to_nat (F / CHUNK))
      ++ (if F / CHUNK * CHUNK <? F then [F / CHUNK] else []).
Proof.
  intros HC HF. unfold chunk_indices. cbv zeta.
  rewrite (Z.mod_small F (2 ^ 32)) by lia. reflexivity.
Qed.

(** Sizes of 2^32 bytes and more: only the low 32 bits are chunked, and the
    branch of the last partial chunk is always taken. *)
Lemma chunk_indices_large F :
  0 < CHUNK -> 2 ^ 32 <= F ->
  chunk_indices CHUNK F = zseq 0 (Z.to_nat ((F mod 2 ^ 32) / CHUNK) + 1).
Proof.
  intros HC HF. unfold chunk_indices. cbv zeta.
  pose proof (Z.mod_pos_bound F (2 ^ 32) ltac:(lia)) as LB.
  set (nc := (F mod 2 ^ 32) / CHUNK).
  assert (Hnc : 0 <= nc) by (apply Z.div_pos; lia).
  assert (Hmul : nc * CHUNK <= F mod 2 ^ 32).
  { unfold nc. rewrite Z.mul_comm. apply Z.mul_div_le. lia. }
  assert (L : (nc * CHUNK <? F) = true) by (apply Z.ltb_lt; lia).
  rewrite L, Nat.add_1_r, zseq_snoc. rewrite Z2Nat.id by lia. reflexivity.
Qed.

(** Dropping the high 32 bits of the size loses at least two chunks. *)
Lemma low_chunks_below F :
  0 < CHUNK < 2 ^ 31 -> 2 ^ 32 <= F ->
  0 <= (F mod 2 ^ 32) / CHUNK /\ (F mod 2 ^ 32) / CHUNK + 2 <= F / CHUNK.
Proof.
  intros HC HF.
  pose proof (Z.mod_pos_bound F (2 ^ 32) ltac:(lia)) as LB.
  pose proof (Z.div_mod F (2 ^ 32) ltac:(lia)) as DM.
  set (lo := F mod 2 ^ 32) in *. set (nc := lo / CHUNK).
  assert (Hnc : 0 <= nc) by (apply Z.div_pos; lia).
  assert (Hmul : nc * CHUNK <= lo).
  { unfold nc. rewrite Z.mul_comm. apply Z.mul_div_le. lia. }
  assert (Hhi : 1 <= F / 2 ^ 32) by (apply Z.div_le_lower_bound; lia).
  split; [exact Hnc|]. apply Z.div_le_lower_bound; nia.
Qed.

Lemma process_file_enqueued op F :
  0 < CHUNK < 2 ^ 31 -> 0 <= F ->
  enqueued (trace_of (run (DCOPY_stat_process_file encode CHUNK op F)))
  = map (copy_item encode op F) (chunk_indices CHUNK F).
Proof.
  intros HC HF. rewrite process_file_spec by assumption.
  cbn [trace_of]. apply enqueued_map_enqueue.
Qed.

(** X1.  The chunk-count law of section 8 on sizes below 2^32: [ceil (F / C)]
    COPY items, none for an empty file. *)
Lemma chunk_count_law op F :
  0 < CHUNK < 2 ^ 31 -> 0 <= F < 2 ^ 32 ->
  Z.of_nat (List.length
              (enqueued (trace_of (run (DCOPY_stat_process_file encode CHUNK op F)))))
  = ceil_div F CHUNK
  /\ (F = 0 ->
      enqueued (trace_of (run (DCOPY_stat_process_file encode CHUNK op F))) = []).
Proof.
  intros HC HF. rewrite process_file_enqueued by lia. split.
  - rewrite length_map, chunk_indices_length, ceil_div_spec by lia.
    rewrite (Z.mod_small F (2 ^ 32)) by lia. f_equal.
    pose proof (Z.div_mod F CHUNK ltac:(lia)) as DM.
    destruct (Z.eqb_spec (F mod CHUNK) 0) as [E|E].
    + assert (L : (F / CHUNK * CHUNK <? F) = false) by (apply Z.ltb_ge; lia).
      now rewrite L.
    + pose proof (Z.mod_pos_bound F CHUNK ltac:(lia)) as MB.
      assert (L : (F / CHUNK * CHUNK <? F) = true) by (apply Z.ltb_lt; lia).
      now rewrite L.
  - intros ->. rewrite chunk_indices_small by lia.
    rewrite Z.div_0_l by lia. reflexivity.
Qed.

(** C1 (section 8, chunk-count law), at the sizes where the code departs
    from it.  Line 120 narrows [file_size] to 32 bits before dividing, so for
    a file of 2^32 bytes or more the chunker enqueues the full chunks of the
    low 32 bits of the size plus one item, which is fewer than
    [ceil (file_size / CHUNK_SIZE)]. *)
Theorem chunk_count_truncated op F :
  0 < CHUNK < 2 ^ 31 -> 2 ^ 32 <= F < 2 ^ 64 ->
  let items :=
    enqueued (trace_of (run (DCOPY_stat_process_file encode CHUNK op F))) in
  Z.of_nat (List.length items) = (F mod 2 ^ 32) / CHUNK + 1
  /\ Z.of_nat (List.length items) < ceil_div F CHUNK.
Proof.
  intros HC HF items. unfold items. clear items.
  rewrite process_file_enqueued by lia.
  rewrite length_map, chunk_indices_large, zseq_length by lia.
  destruct (low_chunks_below F) as [Hnc Hlow]; [lia | lia |].
  rewrite Nat2Z.inj_add, Z2Nat.id by lia. split; [reflexivity|].
  rewrite ceil_div_spec by lia.
  destruct (F mod CHUNK =? 0); lia.
Qed.

(** X2.  The no-remainder case of section 8, at every size: for a positive
    multiple of the chunk size no item carries the index [F / C]. *)
Lemma no_remainder_case op F :
  0 < CHUNK < 2 ^ 31 -> 0 < F -> F mod CHUNK = 0 ->
  exists idxs,
    enqueued (trace_of (run (DCOPY_stat_process_file encode CHUNK op F)))
    = map (copy_item encode op F) idxs
    /\ ~ In (F / CHUNK) idxs.
Proof.
  intros HC HF HM. exists (chunk_indices CHUNK F).
  split; [apply process_file_enqueued; lia|].
  pose proof (Z.div_mod F CHUNK ltac:(lia)) as DM.
  destruct (Z_lt_le_dec F (2 ^ 32)) as [S|L].
  - rewrite chunk_indices_small by lia.
    assert (N : (F / CHUNK * CHUNK <? F) = false) by (apply Z.ltb_ge; lia).
    rewrite N, app_nil_r, zseq_In.
    assert (0 <= F / CHUNK) by (apply Z.div_pos; lia).
    rewrite Z2Nat.id by lia. lia.
  - rewrite chunk_indices_large, zseq_In by lia.
    destruct (low_chunks_below F) as [Hnc Hlow]; [lia | lia |].
    rewrite Nat2Z.inj_add, Z2Nat.id by lia. lia.
Qed.

(** The last partial chunk on sizes below 2^32: after the full chunks
    [0 .. F / C - 1], the item of index [F / C] is enqueued exactly when
    [(F / C) * C < F], and then once. *)
Lemma partial_chunk_small op F :
  0 < CHUNK < 2 ^ 31 -> 0 <= F < 2 ^ 32 ->
  enqueued (trace_of (run (DCOPY_stat_process_file encode CHUNK op F)))
  = map (copy_item encode op F)
      (zseq 0 (Z.to_nat (F / CHUNK))
         ++ (if F / CHUNK * CHUNK <? F then [F / CHUNK] else [])).
Proof.
  intros HC HF. rewrite process_file_enqueued, chunk_indices_small by lia.
  reflexivity.
Qed.

(** C7 (section 4.4, the final partial range), at the sizes where the code
    departs from it.  For a file of 2^32 bytes or more whose size is not a
    multiple of the chunk size, [num_full * CHUNK_SIZE < file_size] holds for
    [num_full = floor (file_size / CHUNK_SIZE)], yet no COPY item of index
    [num_full] is enqueued: the indices stop at the full chunks of the low 32
    bits of the size. *)
Theorem partial_chunk_truncated op F :
  0 < CHUNK < 2 ^ 31 -> 2 ^ 32 <= F < 2 ^ 64 -> F mod CHUNK <> 0 ->
  let num_full := F / CHUNK in
  let idxs := zseq 0 (Z.to_nat ((F mod 2 ^ 32) / CHUNK) + 1) in
  num_full * CHUNK < F
  /\ enqueued (trace_of (run (DCOPY_stat_process_file encode CHUNK op F)))
     = map (copy_item encode op F) idxs
  /\ ~ In num_full idxs.
Proof.
  intros HC HF HM num_full idxs. unfold num_full, idxs. clear num_full idxs.
  pose proof (Z.div_mod F CHUNK ltac:(lia)) as DM.
  pose proof (Z.mod_pos_bound F CHUNK ltac:(lia)) as MB.
  split; [lia|]. split.
  - rewrite process_file_enqueued, chunk_indices_large by lia. reflexivity.
  - rewrite zseq_In.
    destruct (low_chunks_below F) as [Hnc Hlow]; [lia | lia |].
    rewrite Nat2Z.inj_add, Z2Nat.id by lia. lia.
Qed.

(** *** What derived items carry *)

Lemma process_file_items op F tr item :
  In item (enqueued (trace_of (DCOPY_stat_process_file encode CHUNK op F tr))) ->
  In item (enqueued tr)
  \/ exists i,
       item = encode COPY i (operand op) (source_base_offset op)
                (dest_base_appendix op) F.
Proof.
  destruct (process_file_returns op F tr) as (idxs & E). rewrite E.
  cbn [trace_of]. rewrite enqueued_app, enqueued_map_enqueue, in_app_iff, in_map_iff.
  intros [I | (i & <- & _)]; [now left|right]. now exists i.
Qed.

Lemma process_dir_items opts fs op tr item :
  In item (enqueued (trace_of (DCOPY_stat_process_dir encode opts fs op tr))) ->
  In item (enqueued tr)
  \/ item = retry_item encode op
  \/ exists name, item = child_item encode op name.
Proof.
  rewrite process_dir_spec.
  destruct (opendir fs (operand op)) as [entries|].
  - cbn [trace_of]. rewrite !enqueued_app, enqueued_map_enqueue.
    cbn [enqueued app]. rewrite app_nil_r, in_app_iff, in_map_iff.
    intros [I | (name & <- & _)]; [now left|]. right. right. now exists name.
  - destruct (reliable_filesystem opts); cbn [trace_of]; rewrite enqueued_app;
      cbn [enqueued]; rewrite in_app_iff; cbn [In]; intuition auto.
Qed.

Lemma do_treewalk_items opts fs op item :
  In item (enqueued (trace_of (run (DCOPY_do_treewalk encode CHUNK opts fs op)))) ->
  exists c k o f,
    item = encode c k o (source_base_offset op) (dest_base_appendix op) f.
Proof.
  rewrite do_treewalk_spec.
  assert (R : exists c k o f,
            retry_item encode op
            = encode c k o (source_base_offset op) (dest_base_appendix op) f).
  { now exists TREEWALK, (chunk op), (operand op), (file_size op). }
  destruct (lstat fs (operand op)) as [statbuf|].
  - destruct (S_ISDIR (st_mode statbuf)).
    + intros I. apply process_dir_items in I.
      destruct I as [[] | [-> | (name & ->)]]; [exact R|].
      now exists TREEWALK, 0, (operand op ++ "/" ++ name)%string, (file_size op).
    + destruct (S_ISREG (st_mode statbuf)).
      * intros I. apply process_file_items in I.
        destruct I as [[] | (i & ->)].
        now exists COPY, i, (operand op), (to_uint64 (st_size statbuf)).
      * destruct (reliable_filesystem opts); cbn; [tauto|].
        intros [<- | []]. exact R.
  - destruct (reliable_filesystem opts); cbn; [tauto|].
    intros [<- | []]. exact R.
Qed.

Variable decode : wire -> option DCOPY_operation_t.
Hypothesis decode_encode : forall c k o s d f,
  decode (encode c k o s d f) = Some (mk_op c k o s d f).

(** C8 (section 3, invariants).  Every COPY item of the chunker carries the
    operation's source base offset and destination appendix and the full file
    size it was given; every item of the expander, the retry apart, is a
    TREEWALK child carrying the parent's source base offset, destination
    appendix and file size; hence, with a codec that decodes what it encoded,
    every operation reached from a TREEWALK operation through any number of
    callbacks has the source base offset and the destination appendix of that
    operation. *)
Theorem base_offset_preserved :
  (forall op F item,
     In item (enqueued (trace_of (run (DCOPY_stat_process_file encode CHUNK op F)))) ->
     exists i,
       item = encode COPY i (operand op) (source_base_offset op)
                (dest_base_appendix op) F)
  /\ (forall opts fs op item,
        In item (enqueued (trace_of (run (DCOPY_stat_process_dir encode opts fs op)))) ->
        item = encode TREEWALK (chunk op) (operand op) (source_base_offset op)
                 (dest_base_appendix op) (file_size op)
        \/ exists name,
             item = encode TREEWALK 0 (operand op ++ "/" ++ name)%string
                      (source_base_offset op) (dest_base_appendix op) (file_size op))
  /\ (forall opts root op,
        clos_refl_trans _ (derives encode CHUNK decode opts) root op ->
        source_base_offset op = source_base_offset root
        /\ dest_base_appendix op = dest_base_appendix root).
Proof.
  split; [|split].
  - intros op F item I. apply process_file_items in I. destruct I as [[]|I]. exact I.
  - intros opts fs op item I. apply process_dir_items in I.
    destruct I as [[] | [-> | (name & ->)]]; [now left|right]. now exists name.
  - intros opts root op R. induction R as [a b D | a | a b c _ [IH1 IH2] _ [IH3 IH4]].
    + destruct D as (_ & fs & item & I & Dec).
      apply do_treewalk_items in I. destruct I as (c & k & o & f & ->).
      rewrite decode_encode in Dec. inversion Dec. split; reflexivity.
    + split; reflexivity.
    + split; congruence.
Qed.

(** *** The destination directory *)

(** With [popen] returning a stream and the command fitting [cmd_buf], the
    expander's first two effects: the [mkdir -p] command on the destination
    directory of section 4.5 step 1, then the opening of the source
    directory. *)
Lemma process_dir_mkdir_first opts fs op :
  exists rest,
    trace_of (run (DCOPY_stat_process_dir encode opts fs op))
    = EvPopen ("mkdir -p " ++ dest_dir opts op)%string
        :: EvOpendir (operand op) :: rest.
Proof.
  unfold run. rewrite process_dir_spec, mkdir_command_dest_dir.
  destruct (opendir fs (operand op)); [|destruct (reliable_filesystem opts)];
    cbn [trace_of app]; eauto.
Qed.

End TreewalkProperties.

(** ** The codec *)

Module OperationCodecFacts.

Import Stdlib.Strings.Byte.
Import OperationCodec.

Lemma Z_of_byte_of_Z z : Z_of_byte (byte_of_Z z) = z mod 256.
Proof.
  unfold Z_of_byte, byte_of_Z.
  pose proof (Z.mod_pos_bound z 256 ltac:(lia)) as B.
  destruct (Byte.of_N (Z.to_N (z mod 256))) as [b|] eqn:E.
  - apply Byte.to_of_N in E. rewrite E. apply Z2N.id. lia.
  - apply Byte.of_N_None_iff in E. lia.
Qed.

Lemma decode_uint_encode width : forall z rest,
  decode_uint width (encode_uint width z ++ rest)
  = Some (z mod 256 ^ Z.of_nat width, rest).
Proof.
  induction width as [|w IH]; intros z rest.
  - cbn [decode_uint encode_uint app]. unfold pret.
    change (256 ^ Z.of_nat 0) with 1. now rewrite Z.mod_1_r.
  - cbn [decode_uint encode_uint app]. unfold pbind at 1. cbn [any_byte].
    unfold pbind at 1. rewrite IH. unfold pret.
    rewrite Z_of_byte_of_Z, Nat2Z.inj_succ, Z.pow_succ_r by lia.
    rewrite Z.rem_mul_r by lia. reflexivity.
Qed.

Lemma decode_uint_small width z rest :
  0 <= z < 256 ^ Z.of_nat width ->
  decode_uint width (encode_uint width z ++ rest) = Some (z, rest).
Proof.
  intros B. rewrite decode_uint_encode. now rewrite Z.mod_small.
Qed.

Lemma take_app (bs rest : list byte) :
  take (List.length bs) (bs ++ rest) = Some (bs, rest).
Proof.
  unfold take. rewrite length_app.
  replace (List.length bs <=? List.length bs + List.length rest)%nat with true
    by (symmetry; apply Nat.leb_le; lia).
  f_equal. f_equal.
  - induction bs as [|b bs IH]; simpl; [reflexivity|]. now rewrite IH.
  - induction bs as [|b bs IH]; simpl; [reflexivity|]. exact IH.
Qed.

Lemma list_byte_of_string_length s :
  List.length (list_byte_of_string s) = String.length s.
Proof.
  unfold list_byte_of_string. rewrite length_map.
  induction s as [|c s IH]; [reflexivity|].
  cbn [list_ascii_of_string List.length String.length]. now rewrite IH.
Qed.

Lemma decode_string_encode s rest :
  Z.of_nat (String.length s) < 2 ^ 32 ->
  decode_string (encode_string s ++ rest) = Some (s, rest).
Proof.
  intros B. unfold decode_string, encode_string, pbind.
  rewrite <- app_assoc, decode_uint_small.
  - rewrite Nat2Z.id, take_app. unfold pret.
    now rewrite string_of_list_byte_of_string.
  - rewrite list_byte_of_string_length. change (256 ^ Z.of_nat 4) with (2 ^ 32). lia.
Qed.

Lemma decode_code_encode c rest :
  decode_code (encode_code c :: rest) = Some (c, rest).
Proof. destruct c; reflexivity. Qed.

Lemma decode_appendix_encode a rest :
  match a with
  | Some s => Z.of_nat (String.length s) < 2 ^ 32
  | None => True
  end ->
  decode_appendix (encode_appendix a ++ rest) = Some (a, rest).
Proof.
  destruct a as [s|]; intros B; [|reflexivity].
  cbn [encode_appendix app]. unfold decode_appendix, pbind at 1. cbn [any_byte].
  unfold pbind. now rewrite decode_string_encode.
Qed.

(** C3 (sections 4.1 and 8, round trip).  Decoding the encoding of a
    constructible operation gives the operation back, every field of it,
    whatever bytes its paths hold. *)
Theorem codec_round_trip op :
  constructible op -> decode (encode op) = Decoded op.
Proof.
  intros (Bk & Bs & Bf & Bo & Ba). destruct op as [c k o s d f]. cbn in *.
  unfold decode, decode_fields, encode.
  cbn [code chunk operand source_base_offset dest_base_appendix file_size].
  unfold pbind at 1. cbn [any_byte]. cbn [Byte.eqb VERSION].
  change (Byte.eqb VERSION VERSION) with true. cbv iota.
  unfold pbind at 1. rewrite decode_code_encode.
  unfold pbind at 1. rewrite decode_uint_small by (change (256 ^ Z.of_nat 4) with (2 ^ 32); lia).
  unfold pbind at 1. rewrite decode_string_encode by assumption.
  unfold pbind at 1. rewrite decode_uint_small by (change (256 ^ Z.of_nat 8) with (2 ^ 64); lia).
  unfold pbind at 1. rewrite decode_appendix_encode by assumption.
  unfold pbind at 1.
  rewrite <- (app_nil_r (encode_uint 8 f)).
  rewrite decode_uint_small by (change (256 ^ Z.of_nat 8) with (2 ^ 64); lia).
  reflexivity.
Qed.

End OperationCodecFacts.

(** ** The shell and plain paths *)

Lemma sh_plain_not_blank c : sh_plain c = true -> sh_blank c = false.
Proof.
  destruct c as [[] [] [] [] [] [] [] []]; intros H; try reflexivity; discriminate H.
Qed.

Lemma string_app_assoc (a b c : string) : ((a ++ b) ++ c = a ++ (b ++ c))%string.
Proof.
  induction a as [|x a IH]; simpl; [reflexivity|]. now rewrite IH.
Qed.

Lemma string_app_empty_r (a : string) : (a ++ EmptyString)%string = a.
Proof.
  induction a as [|x a IH]; simpl; [reflexivity|]. now rewrite IH.
Qed.

Lemma sh_split_plain s : forall field rest,
  string_forallb sh_plain s = true ->
  sh_split field (s ++ rest) = sh_split (field ++ s) rest.
Proof.
  induction s as [|c s IH]; intros field rest P; cbn [append].
  - now rewrite string_app_empty_r.
  - cbn [string_forallb] in P. apply andb_true_iff in P. destruct P as [Pc Ps].
    cbn [sh_split]. rewrite (sh_plain_not_blank _ Pc).
    rewrite IH by assumption. now rewrite string_app_assoc.
Qed.

Lemma string_forallb_weaken (p q : ascii -> bool) s :
  (forall c, p c = true -> q c = true) ->
  string_forallb p s = true -> string_forallb q s = true.
Proof.
  intros W. induction s as [|c s IH]; cbn [string_forallb]; [reflexivity|].
  intros H. apply andb_true_iff in H. destruct H as [Hc Hs].
  now rewrite (W _ Hc), IH.
Qed.

Lemma dest_dir_nonempty opts op : dest_dir opts op <> EmptyString.
Proof.
  unfold dest_dir.
  destruct (dest_base_appendix op); destruct (dest_path opts); discriminate.
Qed.

(** X10.  Where the destination directory is made of plain characters and
    does not read as an option, [mkdir -p] is asked for that directory and
    nothing else. *)
Lemma mkdir_plain_path opts op :
  string_forallb sh_plain (dest_dir opts op) = true ->
  is_option (dest_dir opts op) = false ->
  mkdir_p_operands (mkdir_command opts op) = Some [dest_dir opts op].
Proof.
  intros P NO. rewrite mkdir_command_dest_dir.
  pose proof (dest_dir_nonempty opts op) as NE.
  set (d := dest_dir opts op) in *.
  unfold mkdir_p_operands, sh_fields.
  assert (A : string_forallb (fun c => sh_blank c || sh_plain c) ("mkdir -p " ++ d)
              = true).
  { cbn. apply (string_forallb_weaken sh_plain); [|assumption].
    intros c H. rewrite H. apply orb_true_r. }
  rewrite A.
  assert (S : sh_split EmptyString ("mkdir -p " ++ d) = ["mkdir"; "-p"; d]%string).
  { cbn. rewrite <- (string_app_empty_r d) at 1.
    rewrite sh_split_plain by assumption. cbn.
    destruct d; [contradiction|reflexivity]. }
  rewrite S. cbn [String.eqb Ascii.eqb Bool.eqb andb forallb]. now rewrite NO.
Qed.

(** ** Scenarios and instances *)

Local Open Scope string_scope.

(** Section 8, first scenario: [/src] with [a] (empty), [b] (two chunks) and
    [c] (two chunks and 100 bytes). *)
Example flat_expansion :
  treewalk flat_fs (mk_op TREEWALK 0 "/src" 4 None 0)
  = Returned tt
      [EvLstat "/src"; EvPopen "mkdir -p /dst/"; EvOpendir "/src";
       EvEnqueue (mk_op TREEWALK 0 "/src/a" 4 None 0);
       EvEnqueue (mk_op TREEWALK 0 "/src/b" 4 None 0);
       EvEnqueue (mk_op TREEWALK 0 "/src/c" 4 None 0);
       EvClosedir "/src"].
Proof. reflexivity. Qed.

Example flat_chunks :
  enqueued (trace_of (treewalk flat_fs (mk_op TREEWALK 0 "/src/a" 4 None 0))) = []
  /\ enqueued (trace_of (treewalk flat_fs (mk_op TREEWALK 0 "/src/b" 4 None 0)))
     = [mk_op COPY 0 "/src/b" 4 None 8388608; mk_op COPY 1 "/src/b" 4 None 8388608]
  /\ enqueued (trace_of (treewalk flat_fs (mk_op TREEWALK 0 "/src/c" 4 None 0)))
     = [mk_op COPY 0 "/src/c" 4 None 8388708; mk_op COPY 1 "/src/c" 4 None 8388708;
        mk_op COPY 2 "/src/c" 4 None 8388708].
Proof. repeat split. Qed.

(** Section 8, second scenario: [/src/sub/d] reached through two expansions
    keeps the source base offset 4, so its destination is [/sub/d] under the
    destination root. *)
Example nested_expansion :
  enqueued (trace_of (treewalk nested_fs (mk_op TREEWALK 0 "/src" 4 None 0)))
  = [mk_op TREEWALK 0 "/src/sub" 4 None 0]
  /\ enqueued (trace_of (treewalk nested_fs (mk_op TREEWALK 0 "/src/sub" 4 None 0)))
     = [mk_op TREEWALK 0 "/src/sub/d" 4 None 0]
  /\ enqueued (trace_of (treewalk nested_fs (mk_op TREEWALK 0 "/src/sub/d" 4 None 0)))
     = [mk_op COPY 0 "/src/sub/d" 4 None 100]
  /\ dest_dir unreliable (mk_op COPY 0 "/src/sub/d" 4 None 100) = "/dst//sub/d".
Proof. repeat split. Qed.

(** C6 (section 4.5 steps 1-2), at an operand where the code departs from
    it.  For the directory [/src/a b] below the source root [/src] the
    destination directory is [/dst//a b]; the expander puts it unquoted into
    the command [mkdir -p /dst//a b], which the shell splits at the blank:
    [mkdir -p] is asked for [/dst//a] and [b], and the destination directory
    is not among them. *)
Theorem mkdir_splits_blank_path :
  let opts := mk_opts false "/dst" in
  let op := mk_op TREEWALK 0 "/src/a b" 4 None 0 in
  let fs := fs_of [("/src/a b", mk_stat MODE_DIR 4096)] [("/src/a b", ["."; ".."])] in
  run (DCOPY_do_treewalk mk_op CHUNK_4M opts fs op)
  = Returned tt
      [EvLstat "/src/a b"; EvPopen "mkdir -p /dst//a b"; EvOpendir "/src/a b";
       EvClosedir "/src/a b"]
  /\ dest_dir opts op = "/dst//a b"
  /\ mkdir_p_operands "mkdir -p /dst//a b" = Some ["/dst//a"; "b"]
  /\ ~ In (dest_dir opts op) ["/dst//a"; "b"].
Proof.
  cbv zeta. repeat split.
  intros [H | [H | []]]; discriminate H.
Qed.

Lemma chunk_count_truncated_witness :
  let items :=
    enqueued (trace_of (run (DCOPY_stat_process_file mk_op CHUNK_4M
                               (mk_op TREEWALK 0 "/src/big" 4 None 0) (2 ^ 32)))) in
  Z.of_nat (List.length items) = (2 ^ 32 mod 2 ^ 32) / CHUNK_4M + 1
  /\ Z.of_nat (List.length items) < ceil_div (2 ^ 32) CHUNK_4M.
Proof.
  apply (chunk_count_truncated DCOPY_operation_t mk_op CHUNK_4M
           (mk_op TREEWALK 0 "/src/big" 4 None 0) (2 ^ 32));
    unfold CHUNK_4M; lia.
Defined.

Lemma partial_chunk_truncated_witness :
  let F := 2 ^ 32 + 100 in
  let num_full := F / CHUNK_4M in
  let idxs := zseq 0 (Z.to_nat ((F mod 2 ^ 32) / CHUNK_4M) + 1) in
  num_full = 1024 /\ idxs = [0]
  /\ num_full * CHUNK_4M < F
  /\ enqueued (trace_of (run (DCOPY_stat_process_file mk_op CHUNK_4M
                                (mk_op TREEWALK 0 "/src/big" 4 None 0) F)))
     = map (copy_item mk_op (mk_op TREEWALK 0 "/src/big" 4 None 0) F) idxs
  /\ ~ In num_full idxs.
Proof.
  split; [reflexivity|]. split; [reflexivity|].
  apply (partial_chunk_truncated DCOPY_operation_t mk_op CHUNK_4M
           (mk_op TREEWALK 0 "/src/big" 4 None 0) (2 ^ 32 + 100));
    unfold CHUNK_4M; [lia | lia | discriminate].
Defined.


Lemma symlink_unsupported_witness :
  DCOPY_is_directory flat_fs "/src/lnk" = false
  /\ DCOPY_is_regular_file flat_fs "/src/lnk" = false
  /\ treewalk flat_fs (mk_op TREEWALK 0 "/src/lnk" 4 None 0)
     = Returned tt
         [EvLstat "/src/lnk"; EvEnqueue (mk_op TREEWALK 0 "/src/lnk" 4 None 0)].
Proof.
  exact (symlink_unsupported DCOPY_operation_t mk_op CHUNK_4M unreliable flat_fs
           (mk_op TREEWALK 0 "/src/lnk" 4 None 0) (mk_stat MODE_LNK 4)
           eq_refl eq_refl).
Defined.


Lemma base_offset_preserved_witness :
  (forall c k o s d f, Some (mk_op c k o s d f) = Some (mk_op c k o s d f))
  /\ forall root op,
       clos_refl_trans _ (derives mk_op CHUNK_4M (@Some _) unreliable) root op ->
       source_base_offset op = source_base_offset root
       /\ dest_base_appendix op = dest_base_appendix root.
Proof.
  split; [reflexivity|].
  apply (base_offset_preserved DCOPY_operation_t mk_op CHUNK_4M (@Some _)
           (fun c k o s d f => eq_refl)).
Defined.

Lemma codec_round_trip_witness :
  let op := mk_op COPY 7 ("/src/a:b c" ++ String "001" (String "255" "/d"))
              4 (Some "run:1") (2 ^ 32 + 100) in
  OperationCodec.constructible op
  /\ OperationCodec.decode (OperationCodec.encode op) = OperationCodec.Decoded op.
Proof.
  cbv zeta.
  assert (C : OperationCodec.constructible
                (mk_op COPY 7 ("/src/a:b c" ++ String "001" (String "255" "/d"))
                   4 (Some "run:1") (2 ^ 32 + 100))).
  { unfold OperationCodec.constructible. cbn. lia. }
  split; [exact C|].
  exact (OperationCodecFacts.codec_round_trip _ C).
Defined.

Lemma classifier_exclusive_witness :
  DCOPY_is_directory flat_fs "/src" && DCOPY_is_regular_file flat_fs "/src" = false
  /\ treewalk flat_fs (mk_op TREEWALK 0 "/src" 4 None 0)
     = DCOPY_stat_process_dir mk_op unreliable flat_fs
         (mk_op TREEWALK 0 "/src" 4 None 0) [EvLstat "/src"].
Proof.
  pose proof (classifier_exclusive DCOPY_operation_t mk_op CHUNK_4M flat_fs "/src")
    as [X D].
  split; [exact X|].
  exact (proj1 (D unreliable (mk_op TREEWALK 0 "/src" 4 None 0) eq_refl) eq_refl).
Defined.

(** * Further properties of the callback *)

Local Close Scope string_scope.

(** ** Lists of indices and offsets into strings *)

Lemma zseq_NoDup n : forall start, NoDup (zseq start n).
Proof.
  induction n as [|n IH]; intros start; cbn [zseq]; constructor.
  - rewrite zseq_In. lia.
  - apply IH.
Qed.

Lemma string_drop_app n : forall s t,
  (n <= String.length s)%nat ->
  string_drop n (s ++ t)%string = (string_drop n s ++ t)%string.
Proof.
  induction n as [|n IH]; intros s t L; [reflexivity|].
  destruct s as [|c s]; cbn [String.length] in L; [lia|].
  cbn [append string_drop]. apply IH. lia.
Qed.

Lemma string_drop_length s t : string_drop (String.length s) (s ++ t)%string = t.
Proof.
  induction s as [|c s IH]; [destruct t; reflexivity|]. exact IH.
Qed.

Lemma string_length_app s t :
  String.length (s ++ t)%string = (String.length s + String.length t)%nat.
Proof.
  induction s as [|c s IH]; [reflexivity|]. cbn [append String.length]. now rewrite IH.
Qed.

(** ** The classifier *)

(** X6.  A classifier answers true exactly when the lookup succeeds and the
    type bits of the mode are those of a directory (of a regular file): a
    failed lookup answers false and the symbolic-link test changes
    nothing. *)
Theorem classifier_characterisation fs path :
  (DCOPY_is_directory fs path = true <->
   exists statbuf,
     lstat fs path = Some statbuf /\ Z.land (st_mode statbuf) S_IFMT = S_IFDIR)
  /\ (DCOPY_is_regular_file fs path = true <->
      exists statbuf,
        lstat fs path = Some statbuf /\ Z.land (st_mode statbuf) S_IFMT = S_IFREG).
Proof.
  unfold DCOPY_is_directory, DCOPY_is_regular_file.
  destruct (lstat fs path) as [statbuf|].
  - rewrite S_ISDIR_nolink, S_ISREG_nolink. unfold S_ISDIR, S_ISREG.
    rewrite !Z.eqb_eq. split; split.
    + intros H. now exists statbuf.
    + intros (s & E & H). now inversion E.
    + intros H. now exists statbuf.
    + intros (s & E & H). now inversion E.
  - split; split; try discriminate; intros (s & E & _); discriminate.
Qed.

(** ** The chunker and the expander, on any trace *)

Section TreewalkFurther.
Variable wire : Type.
Variable encode :
  DCOPY_operation_code_t -> Z -> string -> Z -> option string -> Z -> wire.
Variable CHUNK : Z.

Lemma process_file_spec_from op F tr :
  0 < CHUNK < 2 ^ 31 -> 0 <= F ->
  DCOPY_stat_process_file encode CHUNK op F tr
  = Returned tt (tr ++ map EvEnqueue (map (copy_item encode op F) (chunk_indices CHUNK F))).
Proof.
  intros HC HF. unfold DCOPY_stat_process_file, chunk_indices, bind.
  assert (EC : to_uint32 CHUNK = CHUNK) by (unfold to_uint32; apply Z.mod_small; lia).
  rewrite EC.
  replace (to_uint32 F) with (F mod 2 ^ 32) by reflexivity.
  set (lo := F mod 2 ^ 32).
  assert (Hlo : 0 <= lo < 2 ^ 32) by (apply Z.mod_pos_bound; lia).
  set (nc := lo / CHUNK).
  assert (Hnc : 0 <= nc) by (apply Z.div_pos; lia).
  assert (Hmul : nc * CHUNK <= lo).
  { unfold nc. rewrite Z.mul_comm. apply Z.mul_div_le. lia. }
  assert (Hnc2 : nc < 2 ^ 32) by nia.
  assert (E1 : to_uint32 nc = nc) by (unfold to_uint32; apply Z.mod_small; lia).
  assert (E2 : to_uint32 (nc * CHUNK) = nc * CHUNK)
    by (unfold to_uint32; apply Z.mod_small; nia).
  rewrite E1, E2.
  rewrite (chunk_loop_spec wire encode op F nc (Z.to_nat nc)) by lia.
  destruct (nc * CHUNK <? F).
  - unfold enqueue, emit. fold (copy_item encode op F nc).
    rewrite !map_app, <- app_assoc. reflexivity.
  - unfold ret. rewrite app_nil_r. reflexivity.
Qed.

(** *** Chunk indices *)

(** X3.  Below 2^32 bytes the chunker enqueues, once each, exactly the
    indices of the chunks that hold at least one byte of the file: [i] with
    [0 <= i] and [i * CHUNK < F]. *)
Theorem chunk_cover op F :
  0 < CHUNK < 2 ^ 31 -> 0 <= F < 2 ^ 32 ->
  exists idxs,
    enqueued (trace_of (run (DCOPY_stat_process_file encode CHUNK op F)))
    = map (copy_item encode op F) idxs
    /\ NoDup idxs
    /\ forall i, In i idxs <-> 0 <= i /\ i * CHUNK < F.
Proof.
  intros HC HF. exists (chunk_indices CHUNK F).
  split; [apply process_file_enqueued; lia|].
  rewrite chunk_indices_small by lia.
  pose proof (Z.div_mod F CHUNK ltac:(lia)) as DM.
  pose proof (Z.mod_pos_bound F CHUNK ltac:(lia)) as MB.
  assert (Hq : 0 <= F / CHUNK) by (apply Z.div_pos; lia).
  set (q := F / CHUNK) in *.
  destruct (Z.ltb_spec (q * CHUNK) F) as [L|L].
  - assert (E : zseq 0 (Z.to_nat q) ++ [q] = zseq 0 (S (Z.to_nat q))).
    { rewrite zseq_snoc. do 2 f_equal. lia. }
    rewrite E. split; [apply zseq_NoDup|].
    intros i. rewrite zseq_In, Nat2Z.inj_succ, Z2Nat.id by lia. nia.
  - rewrite app_nil_r. split; [apply zseq_NoDup|].
    intros i. rewrite zseq_In, Z2Nat.id by lia. nia.
Qed.

(** X4.  At every size the indices enqueued are [0, 1, ..., n - 1] for some
    [n] of at most 2^32: no gap, no repeat, and the 32-bit counter never
    wraps. *)
Theorem chunk_indices_contiguous op F :
  0 < CHUNK < 2 ^ 31 -> 0 <= F ->
  exists n,
    enqueued (trace_of (run (DCOPY_stat_process_file encode CHUNK op F)))
    = map (copy_item encode op F) (zseq 0 n)
    /\ Z.of_nat n <= 2 ^ 32.
Proof.
  intros HC HF. rewrite process_file_enqueued by lia. unfold chunk_indices.
  pose proof (Z.mod_pos_bound F (2 ^ 32) ltac:(lia)) as LB.
  set (nc := (F mod 2 ^ 32) / CHUNK).
  assert (Hnc : 0 <= nc) by (apply Z.div_pos; lia).
  assert (Hmul : nc * CHUNK <= F mod 2 ^ 32).
  { unfold nc. rewrite Z.mul_comm. apply Z.mul_div_le. lia. }
  assert (Hnc2 : nc < 2 ^ 32) by nia.
  destruct (nc * CHUNK <? F).
  - exists (S (Z.to_nat nc)). rewrite zseq_snoc, Z2Nat.id by lia.
    split; [reflexivity|lia].
  - exists (Z.to_nat nc). rewrite app_nil_r. split; [reflexivity|lia].
Qed.

(** X5.  On a regular file the callback looks the operand up, enqueues the
    COPY items of the file's size and returns: it runs no command, opens no
    directory and never exits, in either mode. *)
Theorem regular_file_only_enqueues opts fs op statbuf :
  0 < CHUNK < 2 ^ 31 ->
  lstat fs (operand op) = Some statbuf ->
  S_ISREG (st_mode statbuf) = true ->
  run (DCOPY_do_treewalk encode CHUNK opts fs op)
  = Returned tt
      (EvLstat (operand op)
         :: map EvEnqueue
              (map (copy_item encode op (to_uint64 (st_size statbuf)))
                 (chunk_indices CHUNK (to_uint64 (st_size statbuf))))).
Proof.
  intros HC L R. rewrite do_treewalk_spec, L, R.
  destruct (S_ISDIR (st_mode statbuf)) eqn:D.
  - rewrite (S_ISDIR_not_REG _ D) in R. discriminate.
  - rewrite process_file_spec_from; [reflexivity|lia|].
    unfold to_uint64. apply Z.mod_pos_bound. lia.
Qed.

(** *** The expander's handle on the directory *)



(** *** The mirrored destination *)

(** X12.  With the source base offset at the length of the source root, the
    destination directory is the destination root, the appendix if any, and
    the operand's path below the source root. *)
Theorem dest_dir_strips_root opts root rel c k d f :
  dest_dir opts (mk_op c k (root ++ rel)%string (Z.of_nat (String.length root)) d f)
  = match d with
    | Some appendix => (dest_path opts ++ "/" ++ appendix ++ "/" ++ rel)%string
    | None => (dest_path opts ++ "/" ++ rel)%string
    end.
Proof.
  unfold dest_dir, ptr_add.
  cbn [operand source_base_offset dest_base_appendix].
  rewrite Nat2Z.id, string_drop_length. reflexivity.
Qed.

(** X11.  While the source base offset lies within the parent's operand, the
    destination directory of a child enqueued by the expander is the parent's
    destination directory, a [/] and the entry name: the destination tree
    mirrors the source tree, and so do the [mkdir] commands. *)
Theorem dest_dir_child opts op name :
  source_base_offset op <= Z.of_nat (String.length (operand op)) ->
  let child :=
    mk_op TREEWALK 0 (operand op ++ "/" ++ name)%string (source_base_offset op)
      (dest_base_appendix op) (file_size op) in
  dest_dir opts child = (dest_dir opts op ++ "/" ++ name)%string
  /\ mkdir_command opts child = (mkdir_command opts op ++ "/" ++ name)%string.
Proof.
  intros B child.
  assert (D : dest_dir opts child = (dest_dir opts op ++ "/" ++ name)%string).
  { unfold dest_dir, child, ptr_add.
    cbn [operand source_base_offset dest_base_appendix].
    rewrite string_drop_app by lia.
    destruct (dest_base_appendix op); rewrite !string_app_assoc; reflexivity. }
  split; [exact D|].
  rewrite !mkdir_command_dest_dir, D, string_app_assoc. reflexivity.
Qed.

(** *** What one callback enqueues *)

Lemma do_treewalk_item_kinds opts fs op item :
  In item (enqueued (trace_of (run (DCOPY_do_treewalk encode CHUNK opts fs op)))) ->
  item = retry_item encode op
  \/ (exists name, item = child_item encode op name)
  \/ (exists F i, item = copy_item encode op F i).
Proof.
  rewrite do_treewalk_spec.
  destruct (lstat fs (operand op)) as [statbuf|].
  - destruct (S_ISDIR (st_mode statbuf)).
    + intros I. apply process_dir_items in I.
      destruct I as [[] | [-> | (name & ->)]]; [now left|].
      right. left. now exists name.
    + destruct (S_ISREG (st_mode statbuf)).
      * intros I. apply process_file_items in I.
        destruct I as [[] | (i & ->)].
        right. right. now exists (to_uint64 (st_size statbuf)), i.
      * destruct (reliable_filesystem opts); cbn; [tauto|].
        intros [<- | []]. now left.
  - destruct (reliable_filesystem opts); cbn; [tauto|].
    intros [<- | []]. now left.
Qed.

(** X17.  One callback enqueues items of one kind only: the COPY items of
    its operand, or the TREEWALK children of its operand, or the single
    retry (or nothing before an exit); it never mixes them. *)
Theorem callback_output_kinds opts fs op :
  let items :=
    enqueued (trace_of (run (DCOPY_do_treewalk encode CHUNK opts fs op))) in
  (exists F idxs, items = map (copy_item encode op F) idxs)
  \/ (exists names, items = map (child_item encode op) names)
  \/ items = [retry_item encode op].
Proof.
  cbv zeta. rewrite do_treewalk_spec.
  destruct (lstat fs (operand op)) as [statbuf|].
  - destruct (S_ISDIR (st_mode statbuf)).
    + rewrite process_dir_spec. destruct (opendir fs (operand op)) as [entries|].
      * right. left. exists (filter not_dot_or_dotdot entries).
        cbn [trace_of app enqueued].
        rewrite enqueued_app, enqueued_map_enqueue. apply app_nil_r.
      * destruct (reliable_filesystem opts).
        -- right. left. now exists [].
        -- right. right. reflexivity.
    + destruct (S_ISREG (st_mode statbuf)).
      * destruct (process_file_returns wire encode CHUNK op
                    (to_uint64 (st_size statbuf)) [EvLstat (operand op)])
          as (idxs & E).
        rewrite E. left. exists (to_uint64 (st_size statbuf)), idxs.
        cbn [trace_of app enqueued]. apply enqueued_map_enqueue.
      * destruct (reliable_filesystem opts).
        -- right. left. now exists [].
        -- right. right. reflexivity.
  - destruct (reliable_filesystem opts).
    + right. left. now exists [].
    + right. right. reflexivity.
Qed.

(** X16.  The reliability mode matters on error paths only: on a regular
    file, and on a directory that opens, two configurations with the same
    destination root give the same outcome. *)
Theorem reliable_only_on_errors opts1 opts2 fs op :
  dest_path opts1 = dest_path opts2 ->
  DCOPY_is_regular_file fs (operand op) = true
  \/ (DCOPY_is_directory fs (operand op) = true /\ opendir fs (operand op) <> None) ->
  run (DCOPY_do_treewalk encode CHUNK opts1 fs op)
  = run (DCOPY_do_treewalk encode CHUNK opts2 fs op).
Proof.
  intros P. unfold DCOPY_is_directory, DCOPY_is_regular_file.
  rewrite !do_treewalk_spec.
  destruct (lstat fs (operand op)) as [statbuf|].
  - rewrite S_ISDIR_nolink, S_ISREG_nolink. intros [R | (D & O)].
    + destruct (S_ISDIR (st_mode statbuf)) eqn:D.
      * rewrite (S_ISDIR_not_REG _ D) in R. discriminate.
      * now rewrite R.
    + rewrite D, !process_dir_spec.
      destruct (opendir fs (operand op)); [|contradiction].
      unfold mkdir_command. now rewrite P.
  - intros [R | (D & _)]; discriminate.
Qed.

(** *** Along the traversal *)

Variable decode : wire -> option DCOPY_operation_t.
Hypothesis decode_encode : forall c k o s d f,
  decode (encode c k o s d f) = Some (mk_op c k o s d f).

(** One step: what an operation decoded from an enqueued item shares with the
    operation whose callback enqueued it. *)
Lemma derives_step opts op op' :
  derives encode CHUNK decode opts op op' ->
  source_base_offset op' = source_base_offset op
  /\ (operand op' = operand op
      \/ exists name, operand op' = (operand op ++ "/" ++ name)%string)
  /\ (code op' = TREEWALK -> file_size op' = file_size op).
Proof.
  intros (_ & fs & item & I & D).
  apply do_treewalk_item_kinds in I.
  destruct I as [-> | [(name & ->) | (F & i & ->)]];
    unfold retry_item, child_item, copy_item in D;
    rewrite decode_encode in D; inversion D; cbn.
  - auto.
  - split; [reflexivity|]. split; [right; now exists name|reflexivity].
  - split; [reflexivity|]. split; [now left|discriminate].
Qed.

(** X13.  The traversal stays below its root: the operand of every operation
    reached from a TREEWALK operation extends the operand of that operation,
    so a source base offset that lies within the root's operand lies within
    the operand of every operation reached. *)
Theorem traversal_stays_below_root opts root op :
  clos_refl_trans _ (derives encode CHUNK decode opts) root op ->
  (exists rel, operand op = (operand root ++ rel)%string)
  /\ (source_base_offset root <= Z.of_nat (String.length (operand root)) ->
      source_base_offset op <= Z.of_nat (String.length (operand op))).
Proof.
  intros R.
  assert (G : source_base_offset op = source_base_offset root
              /\ exists rel, operand op = (operand root ++ rel)%string).
  { induction R as [a b D | a | a b c _ [S1 (r1 & E1)] _ [S2 (r2 & E2)]].
    - apply derives_step in D. destruct D as (S & [E | (name & E)] & _).
      + split; [exact S|]. exists EmptyString. now rewrite string_app_empty_r.
      + split; [exact S|]. now exists ("/" ++ name)%string.
    - split; [reflexivity|]. exists EmptyString. now rewrite string_app_empty_r.
    - split; [congruence|]. exists (r1 ++ r2)%string.
      now rewrite E2, E1, string_app_assoc. }
  destruct G as (S & rel & E). split; [now exists rel|].
  intros B. rewrite S, E, string_length_app. lia.
Qed.

(** X14.  Every TREEWALK operation reached from a TREEWALK operation carries
    that operation's file size: the expander hands it down unchanged and the
    size read by [lstat] goes into COPY items only. *)
Theorem treewalk_items_keep_file_size opts root op :
  clos_refl_trans _ (derives encode CHUNK decode opts) root op ->
  code op = TREEWALK ->
  file_size op = file_size root.
Proof.
  intros R. apply clos_rt_rtn1 in R.
  induction R as [|b c D _ IH]; [reflexivity|].
  intros T. pose proof D as (Tb & _).
  apply derives_step in D. destruct D as (_ & _ & F).
  rewrite (F T). apply IH. exact Tb.
Qed.


End TreewalkFurther.

(** ** Instances *)

Local Open Scope string_scope.

Lemma chunk_count_law_witness :
  Z.of_nat (List.length
              (enqueued (trace_of (run (DCOPY_stat_process_file mk_op CHUNK_4M
                                          (mk_op TREEWALK 0 "/src/c" 4 None 0)
                                          (2 * CHUNK_4M + 100))))))
  = ceil_div (2 * CHUNK_4M + 100) CHUNK_4M.
Proof.
  apply (chunk_count_law DCOPY_operation_t mk_op CHUNK_4M
           (mk_op TREEWALK 0 "/src/c" 4 None 0) (2 * CHUNK_4M + 100));
    unfold CHUNK_4M; lia.
Defined.

Lemma no_remainder_case_witness :
  exists idxs,
    enqueued (trace_of (run (DCOPY_stat_process_file mk_op CHUNK_4M
                               (mk_op TREEWALK 0 "/src/b" 4 None 0) (2 * CHUNK_4M))))
    = map (copy_item mk_op (mk_op TREEWALK 0 "/src/b" 4 None 0) (2 * CHUNK_4M)) idxs
    /\ ~ In (2 * CHUNK_4M / CHUNK_4M) idxs.
Proof.
  apply (no_remainder_case DCOPY_operation_t mk_op CHUNK_4M
           (mk_op TREEWALK 0 "/src/b" 4 None 0) (2 * CHUNK_4M));
    unfold CHUNK_4M; [lia | lia | reflexivity].
Defined.

Lemma chunk_cover_witness :
  exists idxs,
    enqueued (trace_of (run (DCOPY_stat_process_file mk_op CHUNK_4M
                               (mk_op TREEWALK 0 "/src/c" 4 None 0)
                               (2 * CHUNK_4M + 100))))
    = map (copy_item mk_op (mk_op TREEWALK 0 "/src/c" 4 None 0) (2 * CHUNK_4M + 100))
        idxs
    /\ NoDup idxs
    /\ forall i, In i idxs <-> 0 <= i /\ i * CHUNK_4M < 2 * CHUNK_4M + 100.
Proof.
  apply (chunk_cover DCOPY_operation_t mk_op CHUNK_4M
           (mk_op TREEWALK 0 "/src/c" 4 None 0) (2 * CHUNK_4M + 100));
    unfold CHUNK_4M; lia.
Defined.

Lemma chunk_indices_contiguous_witness :
  exists n,
    enqueued (trace_of (run (DCOPY_stat_process_file mk_op CHUNK_4M
                               (mk_op TREEWALK 0 "/src/big" 4 None 0) (2 ^ 32 + 100))))
    = map (copy_item mk_op (mk_op TREEWALK 0 "/src/big" 4 None 0) (2 ^ 32 + 100))
        (zseq 0 n)
    /\ Z.of_nat n <= 2 ^ 32.
Proof.
  apply (chunk_indices_contiguous DCOPY_operation_t mk_op CHUNK_4M
           (mk_op TREEWALK 0 "/src/big" 4 None 0) (2 ^ 32 + 100));
    unfold CHUNK_4M; lia.
Defined.

Lemma regular_file_only_enqueues_witness :
  treewalk flat_fs (mk_op TREEWALK 0 "/src/c" 4 None 0)
  = Returned tt
      [EvLstat "/src/c";
       EvEnqueue (mk_op COPY 0 "/src/c" 4 None 8388708);
       EvEnqueue (mk_op COPY 1 "/src/c" 4 None 8388708);
       EvEnqueue (mk_op COPY 2 "/src/c" 4 None 8388708)].
Proof.
  apply (regular_file_only_enqueues DCOPY_operation_t mk_op CHUNK_4M unreliable
           flat_fs (mk_op TREEWALK 0 "/src/c" 4 None 0)
           (mk_stat MODE_REG (2 * CHUNK_4M + 100)));
    [unfold CHUNK_4M; lia | reflexivity | reflexivity].
Defined.


Lemma mkdir_plain_path_witness :
  mkdir_p_operands "mkdir -p /dst/run1//sub" = Some ["/dst/run1//sub"].
Proof.
  apply (mkdir_plain_path unreliable (mk_op TREEWALK 0 "/src/sub" 4 (Some "run1") 0));
    reflexivity.
Defined.

Lemma dest_dir_child_witness :
  dest_dir unreliable (mk_op TREEWALK 0 "/src/sub/d" 4 None 0) = "/dst//sub/d"
  /\ mkdir_command unreliable (mk_op TREEWALK 0 "/src/sub/d" 4 None 0)
     = "mkdir -p /dst//sub/d".
Proof.
  apply (dest_dir_child unreliable (mk_op TREEWALK 0 "/src/sub" 4 None 0) "d").
  cbn. lia.
Defined.

(** [/src/sub/d] is reached from [/src] through the expansion of [/src] and
    of [/src/sub]. *)
Lemma nested_reached :
  clos_refl_trans _ (derives mk_op CHUNK_4M (@Some _) unreliable)
    (mk_op TREEWALK 0 "/src" 4 None 0) (mk_op TREEWALK 0 "/src/sub/d" 4 None 0).
Proof.
  apply rt_trans with (y := mk_op TREEWALK 0 "/src/sub" 4 None 0); apply rt_step;
    (split; [reflexivity|]); exists nested_fs; eexists;
    (split; [left; reflexivity|reflexivity]).
Defined.

Lemma traversal_stays_below_root_witness :
  (exists rel, "/src/sub/d" = "/src" ++ rel) /\ (4 <= 4 -> 4 <= 10).
Proof.
  exact (traversal_stays_below_root DCOPY_operation_t mk_op CHUNK_4M (@Some _)
           (fun c k o s d f => eq_refl) unreliable
           (mk_op TREEWALK 0 "/src" 4 None 0) (mk_op TREEWALK 0 "/src/sub/d" 4 None 0)
           nested_reached).
Defined.

Lemma treewalk_items_keep_file_size_witness :
  file_size (mk_op TREEWALK 0 "/src/sub/d" 4 None 0)
  = file_size (mk_op TREEWALK 0 "/src" 4 None 0).
Proof.
  exact (treewalk_items_keep_file_size DCOPY_operation_t mk_op CHUNK_4M (@Some _)
           (fun c k o s d f => eq_refl) unreliable
           (mk_op TREEWALK 0 "/src" 4 None 0) (mk_op TREEWALK 0 "/src/sub/d" 4 None 0)
           nested_reached eq_refl).
Defined.


Lemma reliable_only_on_errors_witness :
  run (DCOPY_do_treewalk mk_op CHUNK_4M (mk_opts true "/dst") flat_fs
         (mk_op TREEWALK 0 "/src" 4 None 0))
  = run (DCOPY_do_treewalk mk_op CHUNK_4M unreliable flat_fs
           (mk_op TREEWALK 0 "/src" 4 None 0)).
Proof.
  apply (reliable_only_on_errors DCOPY_operation_t mk_op CHUNK_4M
           (mk_opts true "/dst") unreliable flat_fs (mk_op TREEWALK 0 "/src" 4 None 0)).
  - reflexivity.
  - right. split; [reflexivity|discriminate].
Defined.

(** * The callback with the C library's failure modes *)

Local Close Scope string_scope.

Section TreewalkSysProperties.
Variable wire : Type.
Variable encode :
  DCOPY_operation_code_t -> Z -> string -> Z -> option string -> Z -> wire.
Variable CHUNK : Z.

Lemma sprintf_into_fits (text : string) (tr : list (event wire)) :
  fits text -> sprintf_into PATH_MAX text tr = Finished (Returned text tr).
Proof.
  intros F. unfold fits in F. unfold sprintf_into.
  destruct (Z.ltb_spec (Z.of_nat (String.length text)) PATH_MAX); [reflexivity|lia].
Qed.

Lemma sprintf_into_overflow (text : string) (tr : list (event wire)) :
  PATH_MAX <= Z.of_nat (String.length text) ->
  sprintf_into PATH_MAX text tr = Killed BufferOverflow tr.
Proof.
  intros F. unfold sprintf_into.
  destruct (Z.ltb_spec (Z.of_nat (String.length text)) PATH_MAX); [lia|reflexivity].
Qed.

(** *** The listing loop *)

Lemma readdir_loop_sys_fits op : forall entries tr,
  (forall name, In name entries -> not_dot_or_dotdot name = true ->
                fits (operand op ++ "/" ++ name)%string) ->
  readdir_loop_sys encode op entries tr = Finished (readdir_loop encode op entries tr).
Proof.
  induction entries as [|name rest IH]; intros tr F; [reflexivity|].
  cbn [readdir_loop_sys readdir_loop]. unfold kbind at 1, bind at 1.
  destruct (not_dot_or_dotdot name) eqn:N.
  - unfold kbind at 1. rewrite sprintf_into_fits by (apply F; [now left|exact N]).
    unfold lift, enqueue, emit. apply IH. intros n I. apply F. now right.
  - unfold kret, ret. apply IH. intros n I. apply F. now right.
Qed.

(** The loop returns or is killed by an overflow of [newop_path]; either way
    it only adds to the trace. *)
Lemma readdir_loop_sys_cases op : forall entries tr,
  exists ext,
    readdir_loop_sys encode op entries tr = Finished (Returned tt (tr ++ ext))
    \/ readdir_loop_sys encode op entries tr = Killed BufferOverflow (tr ++ ext).
Proof.
  induction entries as [|name rest IH]; intros tr.
  - exists []. left. cbn. unfold kret. now rewrite app_nil_r.
  - cbn [readdir_loop_sys]. unfold kbind at 1.
    destruct (not_dot_or_dotdot name).
    + unfold kbind at 1, sprintf_into.
      destruct (Z.of_nat (String.length (operand op ++ "/" ++ name)%string) <? PATH_MAX).
      * unfold lift, enqueue, emit.
        destruct (IH (tr ++ [EvEnqueue
                               (encode TREEWALK 0 (operand op ++ "/" ++ name)%string
                                  (source_base_offset op) (dest_base_appendix op)
                                  (file_size op))]))
          as (ext & H).
        eexists. rewrite <- !app_assoc in H. exact H.
      * exists []. right. now rewrite app_nil_r.
    + unfold kret. apply IH.
Qed.

(** *** The expander *)

Lemma process_dir_sys_spec c opts fs op tr :
  DCOPY_stat_process_dir_sys encode c opts fs op tr
  = if Z.of_nat (String.length (mkdir_command opts op)) <? PATH_MAX then
      if popen c (mkdir_command opts op) then
        match opendir fs (operand op) with
        | None =>
            Finished
              (if reliable_filesystem opts
               then Exited EXIT_FAILURE
                      (tr ++ [EvPopen (mkdir_command opts op); EvOpendir (operand op)])
               else Returned tt
                      (tr ++ [EvPopen (mkdir_command opts op); EvOpendir (operand op);
                              EvEnqueue (retry_item encode op)]))
        | Some entries =>
            kbind (readdir_loop_sys encode op entries)
              (fun _ => lift (emit (EvClosedir (operand op))))
              (tr ++ [EvPopen (mkdir_command opts op); EvOpendir (operand op)])
        end
      else Killed PcloseNull (tr ++ [EvPopen (mkdir_command opts op)])
    else Killed BufferOverflow tr.
Proof.
  unfold DCOPY_stat_process_dir_sys. unfold kbind at 1, sprintf_into.
  destruct (Z.of_nat (String.length (mkdir_command opts op)) <? PATH_MAX); [|reflexivity].
  unfold kbind at 1, lift at 1, emit at 1. unfold kbind at 1, pclose.
  destruct (popen c (mkdir_command opts op)); [|reflexivity].
  unfold kbind at 1, lift at 1, emit at 1. rewrite <- app_assoc. cbn [app].
  destruct (opendir fs (operand op)); [reflexivity|].
  destruct (reliable_filesystem opts); unfold lift, exit, retry_treewalk, enqueue, emit.
  - reflexivity.
  - rewrite <- app_assoc. reflexivity.
Qed.

Lemma process_dir_sys_refines c opts fs op tr :
  fits (mkdir_command opts op) ->
  popen c (mkdir_command opts op) = true ->
  (forall entries name,
     opendir fs (operand op) = Some entries -> In name entries ->
     not_dot_or_dotdot name = true -> fits (operand op ++ "/" ++ name)%string) ->
  DCOPY_stat_process_dir_sys encode c opts fs op tr
  = Finished (DCOPY_stat_process_dir encode opts fs op tr).
Proof.
  intros F P E. rewrite process_dir_sys_spec, P.
  replace (Z.of_nat (String.length (mkdir_command opts op)) <? PATH_MAX) with true
    by (symmetry; apply Z.ltb_lt; exact F).
  rewrite process_dir_spec.
  destruct (opendir fs (operand op)) as [entries|] eqn:O.
  - unfold kbind. rewrite readdir_loop_sys_fits by (intros n; apply (E entries n eq_refl)).
    rewrite readdir_loop_spec. unfold lift, emit. rewrite <- !app_assoc. reflexivity.
  - destruct (reliable_filesystem opts); reflexivity.
Qed.

(** *** The driver *)

Lemma do_treewalk_sys_spec c opts fs op :
  run_sys (DCOPY_do_treewalk_sys encode CHUNK c opts fs op)
  = match lstat fs (operand op) with
    | None =>
        Finished
          (if reliable_filesystem opts
           then Exited EXIT_FAILURE [EvLstat (operand op)]
           else Returned tt [EvLstat (operand op); EvEnqueue (retry_item encode op)])
    | Some statbuf =>
        if S_ISDIR (st_mode statbuf) then
          DCOPY_stat_process_dir_sys encode c opts fs op [EvLstat (operand op)]
        else if S_ISREG (st_mode statbuf) then
          Finished
            (DCOPY_stat_process_file encode CHUNK op (to_uint64 (st_size statbuf))
               [EvLstat (operand op)])
        else
          Finished
            (if reliable_filesystem opts
             then Exited EXIT_FAILURE [EvLstat (operand op)]
             else Returned tt [EvLstat (operand op); EvEnqueue (retry_item encode op)])
    end.
Proof.
  unfold run_sys, DCOPY_do_treewalk_sys. unfold kbind at 1, lift at 1, emit at 1.
  cbn [app].
  destruct (lstat fs (operand op)) as [statbuf|].
  - rewrite S_ISDIR_nolink, S_ISREG_nolink.
    destruct (S_ISDIR (st_mode statbuf)); [reflexivity|].
    destruct (S_ISREG (st_mode statbuf)); [reflexivity|].
    destruct (reliable_filesystem opts); reflexivity.
  - destruct (reliable_filesystem opts); reflexivity.
Qed.

(** Where the callback ends: it returns; or it exits with [EXIT_FAILURE],
    in reliable mode only; or, on a directory only, it is killed. *)
Lemma do_treewalk_sys_outcomes c opts fs op :
  (exists tr,
     run_sys (DCOPY_do_treewalk_sys encode CHUNK c opts fs op)
     = Finished (Returned tt tr))
  \/ (reliable_filesystem opts = true
      /\ exists tr,
           run_sys (DCOPY_do_treewalk_sys encode CHUNK c opts fs op)
           = Finished (Exited EXIT_FAILURE tr))
  \/ (DCOPY_is_directory fs (operand op) = true
      /\ exists f tr,
           run_sys (DCOPY_do_treewalk_sys encode CHUNK c opts fs op) = Killed f tr).
Proof.
  unfold DCOPY_is_directory. rewrite do_treewalk_sys_spec.
  destruct (lstat fs (operand op)) as [statbuf|].
  - rewrite S_ISDIR_nolink. destruct (S_ISDIR (st_mode statbuf)).
    + rewrite process_dir_sys_spec.
      destruct (_ <? PATH_MAX); [|right; right; eauto].
      destruct (popen c (mkdir_command opts op)); [|right; right; eauto].
      destruct (opendir fs (operand op)) as [entries|].
      * unfold kbind.
        destruct (readdir_loop_sys_cases op entries
                    ([EvLstat (operand op)]
                       ++ [EvPopen (mkdir_command opts op); EvOpendir (operand op)]))
          as (ext & [H | H]); rewrite H.
        -- left. unfold lift, emit. eauto.
        -- right. right. eauto.
      * destruct (reliable_filesystem opts); [right; left|left]; eauto.
    + destruct (S_ISREG (st_mode statbuf)).
      * destruct (process_file_returns wire encode CHUNK op
                    (to_uint64 (st_size statbuf)) [EvLstat (operand op)]) as (idxs & E).
        rewrite E. eauto.
      * destruct (reliable_filesystem opts); [right; left|left]; eauto.
  - destruct (reliable_filesystem opts); [right; left|left]; eauto.
Qed.

(** C10, at the runs where the code departs from it.  In unreliable mode, on
    an operand that is a directory, the callback does not always return:
    when [popen] returns NULL the unchecked [pclose] of line 170 kills the
    process right after the command was attempted, and when the [mkdir]
    command does not fit [cmd_buf] the [sprintf] of lines 156-164 kills it
    before; in both cases nothing is enqueued, the retry included. *)
Theorem unreliable_callback_killed c opts fs op :
  reliable_filesystem opts = false ->
  DCOPY_is_directory fs (operand op) = true ->
  (fits (mkdir_command opts op) -> popen c (mkdir_command opts op) = false ->
   run_sys (DCOPY_do_treewalk_sys encode CHUNK c opts fs op)
   = Killed PcloseNull [EvLstat (operand op); EvPopen (mkdir_command opts op)])
  /\ (PATH_MAX <= Z.of_nat (String.length (mkdir_command opts op)) ->
      run_sys (DCOPY_do_treewalk_sys encode CHUNK c opts fs op)
      = Killed BufferOverflow [EvLstat (operand op)]).
Proof.
  intros _ D. unfold DCOPY_is_directory in D. rewrite do_treewalk_sys_spec.
  destruct (lstat fs (operand op)) as [statbuf|]; [|discriminate].
  rewrite S_ISDIR_nolink in D. rewrite D, process_dir_sys_spec. split.
  - intros F P. unfold fits in F. rewrite P.
    replace (Z.of_nat (String.length (mkdir_command opts op)) <? PATH_MAX) with true
      by (symmetry; apply Z.ltb_lt; exact F).
    reflexivity.
  - intros O.
    replace (Z.of_nat (String.length (mkdir_command opts op)) <? PATH_MAX) with false
      by (symmetry; apply Z.ltb_ge; exact O).
    reflexivity.
Qed.


(** X18.  On the runs where [popen] returns a stream and the [mkdir] command
    and every child path fit their buffers (for an operand that is a
    directory; nothing is asked otherwise), the callback with the C library's
    failure modes does exactly what the first embedding does. *)
Theorem do_treewalk_sys_refines c opts fs op :
  (DCOPY_is_directory fs (operand op) = true ->
   fits (mkdir_command opts op)
   /\ popen c (mkdir_command opts op) = true
   /\ forall entries name,
        opendir fs (operand op) = Some entries -> In name entries ->
        not_dot_or_dotdot name = true -> fits (operand op ++ "/" ++ name)%string) ->
  run_sys (DCOPY_do_treewalk_sys encode CHUNK c opts fs op)
  = Finished (run (DCOPY_do_treewalk encode CHUNK opts fs op)).
Proof.
  unfold DCOPY_is_directory. rewrite do_treewalk_sys_spec, do_treewalk_spec.
  destruct (lstat fs (operand op)) as [statbuf|]; [|reflexivity].
  rewrite S_ISDIR_nolink. intros H.
  destruct (S_ISDIR (st_mode statbuf)); [|destruct (S_ISREG (st_mode statbuf)); reflexivity].
  destruct (H eq_refl) as (F & P & E).
  now apply process_dir_sys_refines.
Qed.

End TreewalkSysProperties.

(** ** Instances *)

Local Open Scope string_scope.

(** A destination root of 4091 characters: the [mkdir] command for [/src/sub]
    has 4105, more than [cmd_buf] holds. *)
Example long_destination_killed :
  run_sys (DCOPY_do_treewalk_sys mk_op CHUNK_4M libc_ok
             (mk_opts false ("/" ++ string_repeat 4090 "d")) nested_fs
             (mk_op TREEWALK 0 "/src/sub" 4 None 0))
  = Killed BufferOverflow [EvLstat "/src/sub"].
Proof. vm_compute. reflexivity. Qed.

Lemma unreliable_callback_killed_witness :
  reliable_filesystem unreliable = false
  /\ DCOPY_is_directory nested_fs "/src/sub" = true
  /\ run_sys (DCOPY_do_treewalk_sys mk_op CHUNK_4M libc_no_popen unreliable nested_fs
                (mk_op TREEWALK 0 "/src/sub" 4 None 0))
     = Killed PcloseNull [EvLstat "/src/sub"; EvPopen "mkdir -p /dst//sub"].
Proof.
  split; [reflexivity|]. split; [reflexivity|].
  exact (proj1 (unreliable_callback_killed DCOPY_operation_t mk_op CHUNK_4M
                  libc_no_popen unreliable nested_fs
                  (mk_op TREEWALK 0 "/src/sub" 4 None 0) eq_refl eq_refl)
           eq_refl eq_refl).
Defined.

Lemma do_treewalk_sys_refines_witness :
  run_sys (DCOPY_do_treewalk_sys mk_op CHUNK_4M libc_ok unreliable nested_fs
             (mk_op TREEWALK 0 "/src/sub" 4 None 0))
  = Finished (treewalk nested_fs (mk_op TREEWALK 0 "/src/sub" 4 None 0)).
Proof.
  apply (do_treewalk_sys_refines DCOPY_operation_t mk_op CHUNK_4M libc_ok unreliable
           nested_fs (mk_op TREEWALK 0 "/src/sub" 4 None 0)).
  intros _. split; [reflexivity|]. split; [reflexivity|].
  intros entries name O I _. cbn in O. inversion O. subst entries.
  destruct I as [<- | [<- | [<- | []]]]; reflexivity.
Defined.
